(** * Running course planner: the route store of [script.js]

    A shallow embedding of the private state of class [App] and of the event
    handlers that change it.  The markers, the poly-line overlay and the
    info spans are display collaborators; they are written to but never read
    back by the handlers below, so they are left out of the state.  Of the
    map only its existence matters, to the last step of loading a GPX text.
    The module [Display] further down has the same handlers with the
    overlays and the info panel beside the course.
    What comes in from the platform (a click, the answer of the directions
    service, the outcome of parsing a GPX text) is an argument of the
    handler that receives it.

    A JavaScript number is an IEEE 754 binary64 value: coordinates are the
    kernel's primitive [float]. *)

From Stdlib Require Import String List Bool Arith Lia ZArith.
From Stdlib Require Import Floats.
Import ListNotations.

(** ** Data *)

(** [{lat, lng}] *)
Record LatLng : Set := mkLatLng { lat : float; lng : float }.

(** [{ coords: [{lat,lng}...] }] *)
Record Segment : Set := mkSegment { coords : list LatLng }.

(** The private fields of [App] that hold the course.  [null] is [None]. *)
Record App : Set := mkApp {
  startLatLng : option LatLng;
  lastPointLatLng : option LatLng;
  segments : list Segment;
  pathCoords : list LatLng
}.

(** Field initialisers of the class. *)
Definition App_new : App :=
  {| startLatLng := None; lastPointLatLng := None;
     segments := []; pathCoords := [] |}.

(** Assignments to one field. *)
Definition set_startLatLng (v : option LatLng) (a : App) : App :=
  {| startLatLng := v; lastPointLatLng := lastPointLatLng a;
     segments := segments a; pathCoords := pathCoords a |}.
Definition set_lastPointLatLng (v : option LatLng) (a : App) : App :=
  {| startLatLng := startLatLng a; lastPointLatLng := v;
     segments := segments a; pathCoords := pathCoords a |}.
Definition set_segments (v : list Segment) (a : App) : App :=
  {| startLatLng := startLatLng a; lastPointLatLng := lastPointLatLng a;
     segments := v; pathCoords := pathCoords a |}.
Definition set_pathCoords (v : list LatLng) (a : App) : App :=
  {| startLatLng := startLatLng a; lastPointLatLng := lastPointLatLng a;
     segments := segments a; pathCoords := v |}.

(** ** Recomposition of the path *)

(** One turn of the [forEach] in [_rebuildPathFromSegments]:
    [if (seg.coords && seg.coords.length > 0) path = path.concat(seg.coords.slice(1))]. *)
Definition concat_segment (path : list LatLng) (seg : Segment) : list LatLng :=
  if 0 <? length (coords seg) then path ++ tl (coords seg) else path.

(** [arr[arr.length - 1]]. *)
Definition last_element (arr : list LatLng) : option LatLng :=
  nth_error arr (length arr - 1).

Definition _rebuildPathFromSegments (a : App) : App :=
  match startLatLng a with
  | None => set_pathCoords [] a
  | Some start =>
      let path := fold_left concat_segment (segments a) [start] in
      let a1 := set_pathCoords path a in
      set_lastPointLatLng
        (if 0 <? length (pathCoords a1) then last_element (pathCoords a1)
         else startLatLng a1) a1
  end.

(** ** Clicks and leg resolution *)

Inductive TravelMode : Set := BICYCLING | WALKING.

(** The request handed to the directions service.  The callback registered
    with it closes over [origin] and [destination], so a pending request is
    all that is needed to run its callback later. *)
Record Request : Set := mkRequest {
  origin : LatLng;
  destination : LatLng;
  travelMode : TravelMode
}.

(** [_addRouteSegment], up to the call of [route]: [inputType] is the value
    of the type selector. *)
Definition _addRouteSegment (inputType : string) (origin destination : LatLng)
  : Request :=
  {| origin := origin; destination := destination;
     travelMode := if String.eqb inputType "cycling" then BICYCLING else WALKING |}.

(** [this.#segments.push({coords}); this._rebuildPathFromSegments()]. *)
Definition push_segment (segCoords : list LatLng) (a : App) : App :=
  _rebuildPathFromSegments
    (set_segments (segments a ++ [mkSegment segCoords]) a).

(** The callback of [route]: [overview_path] is
    [result.routes[0].overview_path] with its points read through
    [lat()] and [lng()]; it is looked at only when [status] is ["OK"]. *)
Definition route_callback (req : Request)
    (overview_path : list LatLng) (status : string) (a : App) : App :=
  if negb (String.eqb status "OK") then
    push_segment [origin req; destination req] a
  else
    let segCoords := overview_path in
    if length segCoords =? 0 then a
    else push_segment segCoords a.

(** The segments the callback pushes: one, or none for an ["OK"] answer with
    an empty poly-line. *)
Definition pushed_segments (req : Request)
    (overview_path : list LatLng) (status : string) : list Segment :=
  if negb (String.eqb status "OK") then
    [mkSegment [origin req; destination req]]
  else if length overview_path =? 0 then []
  else [mkSegment overview_path].

(** [_onMapClick]: the new state and the request issued, if any.  With a
    start point and no last point the source would pass [null] as origin;
    [lastPoint_defined] below shows that no run reaches that state, and the
    model issues no request there. *)
Definition _onMapClick (latLng : LatLng) (inputType : string) (a : App)
  : App * option Request :=
  match startLatLng a with
  | None =>
      (set_pathCoords [latLng]
         (set_lastPointLatLng (Some latLng)
            (set_startLatLng (Some latLng) a)), None)
  | Some _ =>
      let a' := set_lastPointLatLng (Some latLng) a in
      match lastPointLatLng a with
      | Some origin => (a', Some (_addRouteSegment inputType origin latLng))
      | None => (a', None)
      end
  end.

(** ** Undo and reset *)

Definition _resetCourse (a : App) : App :=
  set_pathCoords []
    (set_lastPointLatLng None
       (set_startLatLng None
          (set_segments [] a))).

(** [Array.prototype.pop] is [removelast]. *)
Definition _undoLastSegment (a : App) : App :=
  match startLatLng a with
  | None => a
  | Some _ =>
      if length (segments a) =? 0 then _resetCourse a
      else
        _rebuildPathFromSegments (set_segments (removelast (segments a)) a)
  end.

(** ** Loading a GPX text *)

(** A [trkpt] element as the handler reads it:
    [parseFloat(pt.getAttribute('lat'))] and
    [parseFloat(pt.getAttribute('lon'))], which are [NaN] when the attribute
    is missing or not a number. *)
Record Trkpt : Set := mkTrkpt { trkpt_lat : float; trkpt_lon : float }.

(** What [DOMParser.parseFromString] followed by
    [getElementsByTagName('trkpt')] gives for a text: the elements in
    document order, or an exception if the platform's parser raises one. *)
Inductive XmlParse : Set :=
| ParseThrows
| Parsed (pts : list Trkpt).

(** The three [alert]s of [_loadGpxFromText]. *)
Inductive LoadAlert : Set :=
| NoValidTrackPoints   (* pts.length < 2 *)
| LoadedSuccessfully
| ErrorWhileReading.   (* catch (err) *)

Definition trkpt_coords (pt : Trkpt) : LatLng :=
  {| lat := trkpt_lat pt; lng := trkpt_lon pt |}.

(** [_loadGpxFromText], everything inside one [try].  [mapLoaded] tells
    whether [#map] has been assigned.  Until [_loadMap] runs it is
    [undefined], and [this.#map.panTo(...)], the last call before the alert
    of success, raises a [TypeError], which the [catch] reports. *)
Definition _loadGpxFromText (mapLoaded : bool) (xml : XmlParse) (a : App)
  : App * LoadAlert :=
  match xml with
  | ParseThrows => (a, ErrorWhileReading)
  | Parsed pts =>
      if length pts <? 2 then (a, NoValidTrackPoints)
      else
        let coords := map trkpt_coords pts in
        let a1 := _resetCourse a in
        let a2 := set_pathCoords coords a1 in
        let a3 := set_startLatLng (nth_error coords 0) a2 in
        let a4 := set_lastPointLatLng (last_element coords) a3 in
        let a5 := set_segments [mkSegment coords] a4 in
        if mapLoaded then (a5, LoadedSuccessfully)
        else (a5, ErrorWhileReading)
  end.

(** ** The event loop *)

(** The handlers run one at a time on the event queue.  Between two handlers
    there is the course, the requests that the directions service has not
    answered yet, and whether [_loadMap] has run: the constructor wires the
    buttons at once, but with geolocation the map is created only when the
    position request is answered (without geolocation [LoadMap] is the first
    event). *)
Record World : Set := mkWorld {
  app : App;
  inflight : list Request;
  mapLoaded : bool
}.

Definition World_new : World :=
  {| app := App_new; inflight := []; mapLoaded := false |}.

Inductive Event : Set :=
| LoadMap
| MapClick (latLng : LatLng) (inputType : string)
| RouteDone (n : nat) (overview_path : list LatLng) (status : string)
| UndoClick
| ResetClick
| GpxLoaded (xml : XmlParse).

(** Removing the [n]-th pending request. *)
Fixpoint remove_nth (n : nat) (l : list Request) : list Request :=
  match n, l with
  | _, [] => []
  | O, _ :: l' => l'
  | S n', r :: l' => r :: remove_nth n' l'
  end.

(** [LoadMap] is [_loadMap]: it creates the map and registers the click
    listener, so a click is heard only once the map is there.
    [RouteDone n] answers the [n]-th pending request, whichever it is: the
    service answers in any order. *)
Definition step (w : World) (e : Event) : World :=
  match e with
  | LoadMap =>
      {| app := app w; inflight := inflight w; mapLoaded := true |}
  | MapClick latLng inputType =>
      if mapLoaded w then
        let (a', req) := _onMapClick latLng inputType (app w) in
        {| app := a';
           inflight := match req with
                       | Some r => inflight w ++ [r]
                       | None => inflight w
                       end;
           mapLoaded := mapLoaded w |}
      else w
  | RouteDone n overview_path status =>
      match nth_error (inflight w) n with
      | Some req =>
          {| app := route_callback req overview_path status (app w);
             inflight := remove_nth n (inflight w);
             mapLoaded := mapLoaded w |}
      | None => w
      end
  | UndoClick =>
      {| app := _undoLastSegment (app w); inflight := inflight w;
         mapLoaded := mapLoaded w |}
  | ResetClick =>
      {| app := _resetCourse (app w); inflight := inflight w;
         mapLoaded := mapLoaded w |}
  | GpxLoaded xml =>
      {| app := fst (_loadGpxFromText (mapLoaded w) xml (app w));
         inflight := inflight w; mapLoaded := mapLoaded w |}
  end.

Definition run (w : World) (events : list Event) : World :=
  fold_left step events w.

Definition reachable (w : World) : Prop :=
  exists events, run World_new events = w.

(** ** The composed path, as the data model words it *)

(** [start] followed by, for each segment in order, all of its points except
    the first; nothing when there is no start point. *)
Definition composePath (start : option LatLng) (segs : list Segment)
  : list LatLng :=
  match start with
  | None => []
  | Some s => s :: flat_map (fun seg => tl (coords seg)) segs
  end.

(** [Σ (length(segment) - 1)], over the integers. *)
Definition joined_points (segs : list Segment) : Z :=
  fold_right (fun seg acc => (Z.of_nat (length (coords seg)) - 1 + acc)%Z) 0%Z segs.

(** Every stored segment has at least one point. *)
Definition segments_nonempty (a : App) : Prop :=
  Forall (fun seg => coords seg <> []) (segments a).

(** What a completed leg resolution adds to [segments], read off the
    controller's contract: the resolved points when the service answers
    ["OK"] with a non-empty poly-line, the straight line otherwise. *)
Definition materialised_leg (req : Request)
    (overview_path : list LatLng) (status : string) : list LatLng :=
  if String.eqb status "OK" then
    match overview_path with
    | [] => [origin req; destination req]
    | _ :: _ => overview_path
    end
  else [origin req; destination req].

(** An answer of the directions service comes on time when a start point is
    set as it is delivered; every other event is on time. *)
Definition on_time (w : World) (e : Event) : bool :=
  match e, startLatLng (app w) with
  | RouteDone _ _ _, None => false
  | _, _ => true
  end.

(** A run in which every answer of the directions service is delivered
    while a start point is set. *)
Fixpoint answered_with_start (w : World) (events : list Event) : bool :=
  match events with
  | [] => true
  | e :: rest => on_time w e && answered_with_start (step w e) rest
  end.

(** ** Distances *)

(** The functions of [Math] that the distance uses, and the exponentiation
    operator.  ECMAScript leaves their values to the engine
    (implementation-approximated) and fixes only special cases such as
    [Math.sin(+0) = +0]; they are taken as they come.  [Math.sqrt] is the
    IEEE 754 square root, [PrimFloat.sqrt]. *)
Record MathObject : Type := mkMath {
  Math_sin : float -> float;
  Math_cos : float -> float;
  Math_atan2 : float -> float -> float;
  Math_pow : float -> float -> float
}.

(** [Math.PI], the binary64 value nearest to pi. *)
Definition Math_PI : float := 0x1.921fb54442d18p+1%float.

Section Geodesy.

Variable M : MathObject.

Local Open Scope float_scope.

(** [deg => (deg * Math.PI) / 180] *)
Definition toRad (deg : float) : float := (deg * Math_PI) / 180.

(** The haversine term [a] of [_distanceBetween]. *)
Definition haversine_a (p1 p2 : LatLng) : float :=
  let phi1 := toRad (lat p1) in
  let phi2 := toRad (lat p2) in
  let dphi := toRad (lat p2 - lat p1) in
  let dlambda := toRad (lng p2 - lng p1) in
  Math_pow M (Math_sin M (dphi / 2)) 2 +
  Math_cos M phi1 * Math_cos M phi2 * Math_pow M (Math_sin M (dlambda / 2)) 2.

Definition _distanceBetween (p1 p2 : LatLng) : float :=
  let R := 6371000 in
  let a := haversine_a p1 p2 in
  let c := 2 * Math_atan2 M (sqrt a) (sqrt (1 - a)) in
  R * c.

(** The [for] loop of [_getTotalDistanceKm]: [sum] is the accumulator and
    [path] what is left of [pathCoords] from index [i] on; the loop goes on
    while there is a point after the current one. *)
Fixpoint sum_legs (sum : float) (path : list LatLng) : float :=
  match path with
  | p :: (q :: _) as rest => sum_legs (sum + _distanceBetween p q) rest
  | _ => sum
  end.

(** The body of [_getTotalDistanceKm], on the array it reads. *)
Definition totalDistanceKm (path : list LatLng) : float :=
  if (length path <? 2)%nat then 0
  else sum_legs 0 path / 1000.

Definition _getTotalDistanceKm (a : App) : float :=
  totalDistanceKm (pathCoords a).

(** The consecutive pairs of a path, and the distances along them. *)
Fixpoint legs (path : list LatLng) : list (LatLng * LatLng) :=
  match path with
  | p :: (q :: _) as rest => (p, q) :: legs rest
  | _ => []
  end.

Definition leg_distances (path : list LatLng) : list float :=
  map (fun pq => _distanceBetween (fst pq) (snd pq)) (legs path).

End Geodesy.

(** A number that is neither [NaN] nor an infinity. *)
Definition finite (x : float) : bool :=
  match Prim2SF x with
  | S754_zero _ | S754_finite _ _ _ => true
  | S754_infinity _ | S754_nan => false
  end.

(** A shifted mantissa that is not negative and has at most [d] binary
    digits (used to bound the exponent of a rounded product). *)
Definition small (d : Z) (mrs : shr_record) : Prop :=
  (0 <= shr_m mrs /\ Zdigits2 (shr_m mrs) <= d)%Z.

(** The special values ECMAScript fixes for the functions of [Math]:
    [Math.sin(+0)] is [+0], [(+0) ** 2] is [+0], and [Math.atan2(+0, x)] is
    [+0] for [x > 0]. *)
Record ecma_special_values (M : MathObject) : Prop := {
  sin_zero : Math_sin M 0 = 0%float;
  pow_zero : Math_pow M 0 2 = 0%float;
  atan2_zero_one : Math_atan2 M 0 1 = 0%float
}.

(** [Math.sin(x) ** 2] takes the same value at [x] and [-x]: so it is for
    an engine whose sine is odd and whose square is even. *)
Definition sin_square_even (M : MathObject) : Prop :=
  forall x : float,
    Math_pow M (Math_sin M (- x)) 2 = Math_pow M (Math_sin M x) 2.

(** The functions of [Math] where rounding leaves no choice.  For
    [|x| < 2^-27] the sine of [x] differs from [x], the cosine from [1] and
    the arc tangent of [x / 1] from [x] by at most a quarter of the gap
    between neighbouring binary64 numbers: the nearest numbers are [x], [1]
    and [x].  At [half_pi], the binary64 number nearest to π/2, the sine is
    [1] up to 2e-33; [atan2(1, +0)] is π/2, so [half_pi]; and [x ** 2] is
    the rounded product [x * x].  Anywhere else the table has [NaN]. *)
Definition half_pi : float := 0x1.921fb54442d18p+0%float.

Definition tiny (x : float) : bool := (abs x <? 0x1p-27)%float.

Definition agreedMath : MathObject :=
  {| Math_sin := fun x =>
       if tiny x then x
       else if (abs x =? half_pi)%float then (x / abs x)%float
       else nan;
     Math_cos := fun x => if tiny x then 1%float else nan;
     Math_atan2 := fun y x =>
       if (x =? 1)%float && tiny y then y
       else if (y =? 1)%float && (x =? 0)%float then half_pi
       else nan;
     Math_pow := fun x y => if (y =? 2)%float then (x * x)%float else nan |}.

(** Valid coordinates: a latitude in [[-90, 90]] and a longitude in
    [[-180, 180]]. *)
Definition valid_coordinates (p : LatLng) : bool :=
  ((-90 <=? lat p) && (lat p <=? 90) &&
   (-180 <=? lng p) && (lng p <=? 180))%float.

(** [agreedMath] with one more line: the sine and the cosine of
    [toRad 2.5 = 0.04363323129985824], rounded to the nearest binary64
    numbers, 0.043619387365336 and 0.9990482215818578 (the exact sine lies
    0.40 of a gap below the first, the exact cosine 0.32 of a gap below the
    second), and [NaN] for the arc tangent of a [NaN], as ECMAScript has
    it. *)
Definition phi_2_5 : float := 0x1.657184ae74487p-5%float.

Definition antipodeMath : MathObject :=
  {| Math_sin := fun x =>
       if (x =? phi_2_5)%float then 0x1.65547c4694e11p-5%float
       else if (x =? - phi_2_5)%float then (- 0x1.65547c4694e11p-5)%float
       else Math_sin agreedMath x;
     Math_cos := fun x =>
       if (abs x =? phi_2_5)%float then 0x1.ff833f9da45f7p-1%float
       else Math_cos agreedMath x;
     Math_atan2 := fun y x =>
       if is_nan y || is_nan x then nan else Math_atan2 agreedMath y x;
     Math_pow := Math_pow agreedMath |}.

(** ** Sample data *)

Definition ptA : LatLng := {| lat := 35; lng := 126 |}.
Definition ptB : LatLng := {| lat := 35; lng := 126.5 |}.
Definition ptC : LatLng := {| lat := 35.25; lng := 126.5 |}.
Definition ptD : LatLng := {| lat := 35.25; lng := 126 |}.

(** The leg from [ptA] to [ptB], as a walking request. *)
Definition legAB : Request := _addRouteSegment "running" ptA ptB.
Definition legBC : Request := _addRouteSegment "running" ptB ptC.

(** The course after a first click on [ptA]. *)
Definition startOnly : App :=
  {| startLatLng := Some ptA; lastPointLatLng := Some ptA;
     segments := []; pathCoords := [ptA] |}.

(** A start point and the straight leg to [ptB]. *)
Definition oneLeg : App :=
  {| startLatLng := Some ptA; lastPointLatLng := Some ptB;
     segments := [mkSegment [ptA; ptB]]; pathCoords := [ptA; ptB] |}.

(** Half way round the equator, then two steps north of 2^-46 degrees
    each (1.58 nanometres). *)
Definition farThenNear : list LatLng :=
  [ {| lat := 0; lng := 180 |};
    {| lat := 0; lng := 0 |};
    {| lat := 0x1p-46; lng := 0 |};
    {| lat := 0x1p-45; lng := 0 |} ].

(** Two points opposite each other on the globe. *)
Definition north_2_5 : LatLng := {| lat := 2.5; lng := 0 |}.
Definition south_2_5 : LatLng := {| lat := -2.5; lng := 180 |}.

(** * The page around the course

    The handlers also keep the overlays of the map and the spans of the info
    panel up to date, and one of them writes the course out as a GPX text.
    Here they are once more, statement by statement, on a state that has
    the overlays and the panel beside the course.

    An overlay is an object: the fields [#polyline] and [#startMarker] hold
    a reference to the current one and [setMap(null)] changes the object.
    The state keeps every overlay created so far, in the order of creation,
    and a reference is an index.  What an overlay records of the map is
    whether it is on it; one created with [map: this.#map] before [_loadMap]
    has run gets [undefined] and is not.

    Of the platform the handlers use [Number.prototype.toFixed], the
    conversion of a string to a number by unary [+] and the conversion of a
    number to a string inside a template literal, beside [Math]; they are
    taken as they come. *)

Record Platform : Type := mkPlatform {
  math : MathObject;
  toFixed : float -> nat -> string;
  toNumber : string -> float;
  numberToString : float -> string
}.

Module Display.

(** A poly-line as [_redrawPolyline] creates it ([strokeOpacity] and
    [strokeWeight] are constants). *)
Record Polyline : Set := mkPolyline {
  path : list LatLng;
  strokeColor : string;
  line_onMap : bool
}.

(** A marker as [_onMapClick] and [_loadGpxFromText] create it. *)
Record Marker : Set := mkMarker {
  position : option LatLng;
  label : string;
  marker_onMap : bool
}.

(** [textContent] of the spans [.course-current], [.course-target] and
    [.course-diff], and [style.color] of the last. *)
Record Info : Set := mkInfo {
  course_current : string;
  course_target : string;
  course_diff : string;
  course_diff_color : string
}.

(** The page between two handlers.  [info] is [None] as long as the spans are
    as the markup of the page has them. *)
Record Page : Set := mkPage {
  world : World;
  polylines : list Polyline;
  polyline : option nat;
  markers : list Marker;
  startMarker : option nat;
  inputType_value : string;
  inputCourseKm_value : string;
  info : option Info
}.

(** The page as the constructor leaves it; the values of the two inputs are
    those of the markup. *)
Definition Page_new (inputType_value inputCourseKm_value : string) : Page :=
  {| world := World_new;
     polylines := []; polyline := None;
     markers := []; startMarker := None;
     inputType_value := inputType_value;
     inputCourseKm_value := inputCourseKm_value;
     info := None |}.

Definition set_world (v : World) (pg : Page) : Page :=
  {| world := v;
     polylines := polylines pg; polyline := polyline pg;
     markers := markers pg; startMarker := startMarker pg;
     inputType_value := inputType_value pg;
     inputCourseKm_value := inputCourseKm_value pg;
     info := info pg |}.
Definition set_app (v : App) (pg : Page) : Page :=
  set_world {| app := v; inflight := inflight (world pg);
               mapLoaded := mapLoaded (world pg) |} pg.
Definition set_polylines (v : list Polyline) (pg : Page) : Page :=
  {| world := world pg;
     polylines := v; polyline := polyline pg;
     markers := markers pg; startMarker := startMarker pg;
     inputType_value := inputType_value pg;
     inputCourseKm_value := inputCourseKm_value pg;
     info := info pg |}.
Definition set_polyline (v : option nat) (pg : Page) : Page :=
  {| world := world pg;
     polylines := polylines pg; polyline := v;
     markers := markers pg; startMarker := startMarker pg;
     inputType_value := inputType_value pg;
     inputCourseKm_value := inputCourseKm_value pg;
     info := info pg |}.
Definition set_markers (v : list Marker) (pg : Page) : Page :=
  {| world := world pg;
     polylines := polylines pg; polyline := polyline pg;
     markers := v; startMarker := startMarker pg;
     inputType_value := inputType_value pg;
     inputCourseKm_value := inputCourseKm_value pg;
     info := info pg |}.
Definition set_startMarker (v : option nat) (pg : Page) : Page :=
  {| world := world pg;
     polylines := polylines pg; polyline := polyline pg;
     markers := markers pg; startMarker := v;
     inputType_value := inputType_value pg;
     inputCourseKm_value := inputCourseKm_value pg;
     info := info pg |}.
Definition set_inputType_value (v : string) (pg : Page) : Page :=
  {| world := world pg;
     polylines := polylines pg; polyline := polyline pg;
     markers := markers pg; startMarker := startMarker pg;
     inputType_value := v;
     inputCourseKm_value := inputCourseKm_value pg;
     info := info pg |}.
Definition set_inputCourseKm_value (v : string) (pg : Page) : Page :=
  {| world := world pg;
     polylines := polylines pg; polyline := polyline pg;
     markers := markers pg; startMarker := startMarker pg;
     inputType_value := inputType_value pg;
     inputCourseKm_value := v;
     info := info pg |}.
Definition set_info (v : option Info) (pg : Page) : Page :=
  {| world := world pg;
     polylines := polylines pg; polyline := polyline pg;
     markers := markers pg; startMarker := startMarker pg;
     inputType_value := inputType_value pg;
     inputCourseKm_value := inputCourseKm_value pg;
     info := v |}.

(** A method call on the object behind a reference. *)
Fixpoint update_nth {A : Type} (n : nat) (f : A -> A) (l : list A) : list A :=
  match l, n with
  | [], _ => []
  | x :: l', O => f x :: l'
  | x :: l', S n' => x :: update_nth n' f l'
  end.

(** [setMap(null)] *)
Definition line_setMap_null (l : Polyline) : Polyline :=
  {| path := path l; strokeColor := strokeColor l; line_onMap := false |}.
Definition marker_setMap_null (m : Marker) : Marker :=
  {| position := position m; label := label m; marker_onMap := false |}.

(** [new google.maps.Marker({position: this.#startLatLng, map: this.#map,
    label: 'S'})], assigned to [#startMarker]. *)
Definition new_startMarker (pg : Page) : Page :=
  set_startMarker (Some (length (markers pg)))
    (set_markers
       (markers pg ++
          [ {| position := startLatLng (app (world pg));
               label := "S";
               marker_onMap := mapLoaded (world pg) |} ]) pg).

Definition _redrawPolyline (pg : Page) : Page :=
  let pg1 :=
    match polyline pg with
    | Some i => set_polylines (update_nth i line_setMap_null (polylines pg)) pg
    | None => pg
    end in
  if length (pathCoords (app (world pg1))) <? 2 then pg1
  else
    set_polyline (Some (length (polylines pg1)))
      (set_polylines
         (polylines pg1 ++
            [ {| path := pathCoords (app (world pg1));
                 strokeColor :=
                   if (inputType_value pg1 =? "cycling")%string
                   then "#ffb545" else "#00c46a";
                 line_onMap := mapLoaded (world pg1) |} ]) pg1).

(** The poly-lines and the markers on the map, and the objects behind the
    two references. *)
Definition shown_lines (pg : Page) : list Polyline :=
  filter line_onMap (polylines pg).
Definition shown_markers (pg : Page) : list Marker :=
  filter marker_onMap (markers pg).
Definition current_line (pg : Page) : option Polyline :=
  match polyline pg with
  | Some i => nth_error (polylines pg) i
  | None => None
  end.
Definition current_marker (pg : Page) : option Marker :=
  match startMarker pg with
  | Some i => nth_error (markers pg) i
  | None => None
  end.

(** What [if (x)] makes of a number: [0], [-0] and [NaN] are false. *)
Definition truthy (x : float) : bool := negb ((x =? 0)%float || is_nan x).

(** The outcome of [_downloadGpx]: the alert that there is no course, or the
    file handed to the browser. *)
Inductive Download : Set :=
| NothingToExport
| GpxFile (download : string) (gpx : string).

(** The double quote and the line feed. *)
Definition dq : string := String (Ascii.ascii_of_nat 34) EmptyString.
Definition nl : string := String (Ascii.ascii_of_nat 10) EmptyString.

Definition gpx_header : string :=
  ("<?xml version=" ++ dq ++ "1.0" ++ dq ++ " encoding=" ++ dq ++ "UTF-8"
     ++ dq ++ "?>" ++ nl ++
   "<gpx version=" ++ dq ++ "1.1" ++ dq ++ " creator=" ++ dq
     ++ "RunningCoursePlanner" ++ dq ++ " " ++
   "xmlns=" ++ dq ++ "http://www.topografix.com/GPX/1/1" ++ dq ++ " " ++
   "xmlns:xsi=" ++ dq ++ "http://www.w3.org/2001/XMLSchema-instance" ++ dq
     ++ " " ++
   "xsi:schemaLocation=" ++ dq ++ "http://www.topografix.com/GPX/1/1 " ++
   "http://www.topografix.com/GPX/1/1/gpx.xsd" ++ dq ++ ">" ++ nl)%string.

Section Handlers.

Variable P : Platform.

(** [+inputCourseKm.value || null] *)
Definition targetKm (value : string) : option float :=
  let x := toNumber P value in
  if truthy x then Some x else None.

(** What [_updateInfo] writes into the spans. *)
Definition panel (pg : Page) : Info :=
  let currentKm := _getTotalDistanceKm (math P) (app (world pg)) in
  match targetKm (inputCourseKm_value pg) with
  | Some targetKm =>
      let diff := (currentKm - targetKm)%float in
      {| course_current := toFixed P currentKm 2;
         course_target := toFixed P targetKm 2;
         course_diff := toFixed P diff 2;
         course_diff_color :=
           if (abs diff <=? 0x1.999999999999ap-3)%float
           then "#00c46a" else "#ffb545" |}
  | None =>
      {| course_current := toFixed P currentKm 2;
         course_target := "-";
         course_diff := "-";
         course_diff_color := "#ececec" |}
  end.

Definition _updateInfo (pg : Page) : Page := set_info (Some (panel pg)) pg.

(** [_onMapClick], with the marker, the poly-line and the panel. *)
Definition _onMapClick (latLng : LatLng) (pg : Page) : Page :=
  let a := app (world pg) in
  match startLatLng a with
  | None =>
      let pg1 :=
        set_app
          (set_pathCoords [latLng]
             (set_lastPointLatLng (Some latLng)
                (set_startLatLng (Some latLng) a))) pg in
      let pg2 :=
        match startMarker pg1 with
        | Some i =>
            set_markers (update_nth i marker_setMap_null (markers pg1)) pg1
        | None => pg1
        end in
      _updateInfo (_redrawPolyline (new_startMarker pg2))
  | Some _ =>
      let pg1 := set_app (set_lastPointLatLng (Some latLng) a) pg in
      (* no request without a last point, as in the course model *)
      match lastPointLatLng a with
      | Some origin =>
          set_world
            {| app := app (world pg1);
               inflight :=
                 inflight (world pg1) ++
                   [_addRouteSegment (inputType_value pg1) origin latLng];
               mapLoaded := mapLoaded (world pg1) |} pg1
      | None => pg1
      end
  end.

(** The callback of [route]. *)
Definition route_callback (req : Request)
    (overview_path : list LatLng) (status : string) (pg : Page) : Page :=
  if negb (String.eqb status "OK") then
    let segCoords := [origin req; destination req] in
    _updateInfo
      (_redrawPolyline (set_app (push_segment segCoords (app (world pg))) pg))
  else
    let segCoords := overview_path in
    if length segCoords =? 0 then pg
    else
      _updateInfo
        (_redrawPolyline
           (set_app (push_segment segCoords (app (world pg))) pg)).

Definition _resetCourse (pg : Page) : Page :=
  let pg1 := set_app (set_segments [] (app (world pg))) pg in
  let pg2 :=
    match polyline pg1 with
    | Some i =>
        set_polyline None
          (set_polylines (update_nth i line_setMap_null (polylines pg1)) pg1)
    | None => pg1
    end in
  let pg3 :=
    match startMarker pg2 with
    | Some i =>
        set_startMarker None
          (set_markers (update_nth i marker_setMap_null (markers pg2)) pg2)
    | None => pg2
    end in
  _updateInfo
    (set_app
       (set_pathCoords []
          (set_lastPointLatLng None
             (set_startLatLng None (app (world pg3))))) pg3).

Definition _undoLastSegment (pg : Page) : Page :=
  let a := app (world pg) in
  match startLatLng a with
  | None => pg
  | Some _ =>
      if length (segments a) =? 0 then _resetCourse pg
      else
        _updateInfo
          (_redrawPolyline
             (set_app
                (_rebuildPathFromSegments
                   (set_segments (removelast (segments a)) a)) pg))
  end.

(** [_loadGpxFromText]: the last call of the [try] before the alert of
    success is [this.#map.panTo], which raises while there is no map. *)
Definition _loadGpxFromText (xml : XmlParse) (pg : Page) : Page * LoadAlert :=
  match xml with
  | ParseThrows => (pg, ErrorWhileReading)
  | Parsed pts =>
      if length pts <? 2 then (pg, NoValidTrackPoints)
      else
        let coords := map trkpt_coords pts in
        let pg1 := _resetCourse pg in
        let a1 := set_pathCoords coords (app (world pg1)) in
        let a2 := set_startLatLng (nth_error coords 0) a1 in
        let a3 := set_lastPointLatLng (last_element coords) a2 in
        let a4 := set_segments [mkSegment coords] a3 in
        let pg2 := new_startMarker (set_app a4 pg1) in
        let pg3 := _updateInfo (_redrawPolyline pg2) in
        if mapLoaded (world pg3) then (pg3, LoadedSuccessfully)
        else (pg3, ErrorWhileReading)
  end.

(** One [trkpt] element of the export. *)
Definition gpx_trkpt (timeStr : string) (p : LatLng) : string :=
  ("      <trkpt lat=" ++ dq ++ numberToString P (lat p) ++ dq
     ++ " lon=" ++ dq ++ numberToString P (lng p) ++ dq ++ ">" ++ nl ++
   "        <ele>0</ele>" ++ nl ++
   "        <time>" ++ timeStr ++ "</time>" ++ nl ++
   "      </trkpt>" ++ nl)%string.

(** [_downloadGpx]; [timeStr] is [new Date().toISOString()]. *)
Definition _downloadGpx (timeStr : string) (a : App) : Download :=
  if match startLatLng a with None => true | Some _ => false end
     || (length (pathCoords a) <? 2)
  then NothingToExport
  else
    let trk :=
      ("  <trk>" ++ nl ++
       "    <name>Running Course</name>" ++ nl ++
       "    <time>" ++ timeStr ++ "</time>" ++ nl ++
       "    <trkseg>" ++ nl)%string in
    let trk :=
      fold_left (fun trk p => (trk ++ gpx_trkpt timeStr p)%string)
        (pathCoords a) trk in
    let trk :=
      (trk ++ "    </trkseg>" ++ nl ++ "  </trk>" ++ nl ++ "</gpx>" ++ nl)%string in
    let gpx := (gpx_header ++ trk)%string in
    let currentKm := toFixed P (_getTotalDistanceKm (math P) a) 2 in
    GpxFile ("running-course-" ++ currentKm ++ "km.gpx")%string gpx.

(** What happens on the page.  The type selector has no listener: a new
    choice only changes its value.  Typing a target runs [_updateInfo]. *)
Inductive PageEvent : Set :=
| MapLoads
| Click (latLng : LatLng)
| Answer (n : nat) (overview_path : list LatLng) (status : string)
| Undo
| Reset
| Load (xml : XmlParse)
| SelectType (value : string)
| TypeCourseKm (value : string).

Definition step (pg : Page) (e : PageEvent) : Page :=
  match e with
  | MapLoads =>
      set_world {| app := app (world pg); inflight := inflight (world pg);
                   mapLoaded := true |} pg
  | Click latLng =>
      if mapLoaded (world pg) then _onMapClick latLng pg else pg
  | Answer n overview_path status =>
      match nth_error (inflight (world pg)) n with
      | Some req =>
          route_callback req overview_path status
            (set_world
               {| app := app (world pg);
                  inflight := remove_nth n (inflight (world pg));
                  mapLoaded := mapLoaded (world pg) |} pg)
      | None => pg
      end
  | Undo => _undoLastSegment pg
  | Reset => _resetCourse pg
  | Load xml => fst (_loadGpxFromText xml pg)
  | SelectType value => set_inputType_value value pg
  | TypeCourseKm value => _updateInfo (set_inputCourseKm_value value pg)
  end.

Definition run (pg : Page) (events : list PageEvent) : Page :=
  fold_left step events pg.

(** The events of the course in a run of the page: a click carries the
    value the type selector has when it is heard. *)
Definition course_event (pg : Page) (e : PageEvent) : list Event :=
  match e with
  | MapLoads => [LoadMap]
  | Click latLng => [MapClick latLng (inputType_value pg)]
  | Answer n overview_path status => [RouteDone n overview_path status]
  | Undo => [UndoClick]
  | Reset => [ResetClick]
  | Load xml => [GpxLoaded xml]
  | SelectType _ | TypeCourseKm _ => []
  end.

Fixpoint course_events (pg : Page) (events : list PageEvent) : list Event :=
  match events with
  | [] => []
  | e :: rest => course_event pg e ++ course_events (step pg e) rest
  end.

End Handlers.

(** Every poly-line but the current one is off the map. *)
Definition lines_tidy (pg : Page) : Prop :=
  match polyline pg with
  | None => Forall (fun l => line_onMap l = false) (polylines pg)
  | Some i =>
      exists ls l,
        polylines pg = ls ++ [l] /\ i = length ls /\
        Forall (fun l => line_onMap l = false) ls
  end.

(** Moreover the current one, if it is on the map, draws the path, and the
    path has two points at least. *)
Definition lines_inv (pg : Page) : Prop :=
  match polyline pg with
  | None => Forall (fun l => line_onMap l = false) (polylines pg)
  | Some i =>
      exists ls l,
        polylines pg = ls ++ [l] /\ i = length ls /\
        Forall (fun l => line_onMap l = false) ls /\
        (line_onMap l = true ->
         path l = pathCoords (app (world pg)) /\ 2 <= length (path l))
  end.

(** There is a current marker exactly when there is a start point; it stands
    at the start point, and every other marker is off the map. *)
Definition markers_inv (pg : Page) : Prop :=
  match startMarker pg with
  | None =>
      startLatLng (app (world pg)) = None /\
      Forall (fun m => marker_onMap m = false) (markers pg)
  | Some i =>
      exists ms m,
        markers pg = ms ++ [m] /\ i = length ms /\
        Forall (fun m => marker_onMap m = false) ms /\
        position m = startLatLng (app (world pg)) /\
        startLatLng (app (world pg)) <> None
  end.

(** The map is there, a path of two points or more has its poly-line on the
    map and a start point has its marker on the map. *)
Definition shown_inv (pg : Page) : Prop :=
  mapLoaded (world pg) = true /\
  (2 <= length (pathCoords (app (world pg))) ->
   exists ls l,
     polylines pg = ls ++ [l] /\ polyline pg = Some (length ls) /\
     line_onMap l = true) /\
  (startLatLng (app (world pg)) <> None ->
   exists ms m,
     markers pg = ms ++ [m] /\ startMarker pg = Some (length ms) /\
     marker_onMap m = true).

End Display.

(** A platform for the examples: the distances of [antipodeMath], a target
    of 10 whatever is typed, and numbers that print as a question mark. *)
Definition examplePlatform : Platform :=
  {| math := antipodeMath;
     toFixed := fun _ _ => "?"%string;
     toNumber := fun _ => 10%float;
     numberToString := fun _ => "?"%string |}.

(** * Properties *)

(** ** Recomposition *)

Lemma fold_concat_segment (segs : list Segment) (path : list LatLng) :
  fold_left concat_segment segs path =
  path ++ flat_map (fun seg => tl (coords seg)) segs.
Proof.
  revert path; induction segs as [|seg segs IH]; intro path; simpl.
  - now rewrite app_nil_r.
  - rewrite IH. unfold concat_segment.
    destruct (coords seg) as [|c cs]; simpl.
    + reflexivity.
    + now rewrite <- app_assoc.
Qed.

Lemma rebuild_startLatLng (a : App) :
  startLatLng (_rebuildPathFromSegments a) = startLatLng a.
Proof.
  unfold _rebuildPathFromSegments.
  destruct (startLatLng a) eqn:E; simpl; exact E.
Qed.

Lemma rebuild_segments (a : App) :
  segments (_rebuildPathFromSegments a) = segments a.
Proof. unfold _rebuildPathFromSegments. now destruct (startLatLng a). Qed.

Lemma rebuild_pathCoords (a : App) :
  pathCoords (_rebuildPathFromSegments a) =
  composePath (startLatLng a) (segments a).
Proof.
  unfold _rebuildPathFromSegments, composePath.
  destruct (startLatLng a) as [s|]; simpl; [|reflexivity].
  now rewrite fold_concat_segment.
Qed.

Lemma last_cons_default {A} (x d d' : A) (l : list A) :
  last (x :: l) d = last (x :: l) d'.
Proof.
  revert x; induction l as [|y l IH]; intro x; [reflexivity|].
  change (last (y :: l) d = last (y :: l) d'). apply IH.
Qed.

Lemma last_element_cons (p : LatLng) (l : list LatLng) :
  last_element (p :: l) = Some (last l p).
Proof.
  unfold last_element. simpl length. rewrite Nat.sub_succ, Nat.sub_0_r.
  revert p; induction l as [|q l IH]; intro p; [reflexivity|].
  simpl length. change (nth_error (q :: l) (length l) = Some (last (q :: l) p)).
  rewrite IH. f_equal. destruct l as [|r l]; [reflexivity|].
  change (last (r :: l) q = last (r :: l) p). apply last_cons_default.
Qed.

Lemma rebuild_lastPointLatLng (a : App) (s : LatLng) :
  startLatLng a = Some s ->
  lastPointLatLng (_rebuildPathFromSegments a) =
  last_element (composePath (startLatLng a) (segments a)).
Proof.
  intro Hs. unfold _rebuildPathFromSegments, composePath. rewrite Hs. simpl.
  rewrite fold_concat_segment. reflexivity.
Qed.

Lemma rebuild_with_start (a : App) (s : LatLng) :
  startLatLng a = Some s ->
  _rebuildPathFromSegments a =
  {| startLatLng := Some s;
     lastPointLatLng := last_element (composePath (Some s) (segments a));
     segments := segments a;
     pathCoords := composePath (Some s) (segments a) |}.
Proof.
  intro Hs. unfold _rebuildPathFromSegments. rewrite Hs.
  rewrite fold_concat_segment. unfold set_lastPointLatLng, set_pathCoords.
  simpl. now rewrite Hs.
Qed.

Lemma composePath_app (start : option LatLng) (segs : list Segment) (seg : Segment) :
  start <> None ->
  composePath start (segs ++ [seg]) = composePath start segs ++ tl (coords seg).
Proof.
  destruct start as [s|]; [intros _|congruence]. simpl.
  now rewrite flat_map_app; simpl; rewrite app_nil_r.
Qed.

Lemma composePath_length (s : LatLng) (segs : list Segment) :
  Forall (fun seg => coords seg <> []) segs ->
  Z.of_nat (length (composePath (Some s) segs)) = (1 + joined_points segs)%Z.
Proof.
  intro H. simpl length. rewrite Nat2Z.inj_succ. unfold Z.succ.
  rewrite Z.add_comm. f_equal.
  induction H as [|seg segs Hne _ IH]; [reflexivity|].
  simpl. rewrite length_app, Nat2Z.inj_add, IH.
  destruct (coords seg) as [|c cs]; [congruence|]. simpl length. lia.
Qed.

(** ** What every run preserves *)

Lemma run_app (w : World) (ev1 ev2 : list Event) :
  run w (ev1 ++ ev2) = run (run w ev1) ev2.
Proof. apply fold_left_app. Qed.

Lemma run_invariant (P : World -> Prop) :
  P World_new ->
  (forall w e, P w -> P (step w e)) ->
  forall events, P (run World_new events).
Proof.
  intros H0 Hstep events. unfold run.
  generalize World_new H0. induction events as [|e events IH]; intros w Hw.
  - exact Hw.
  - simpl. apply IH, Hstep, Hw.
Qed.

Lemma push_segment_nonempty (segCoords : list LatLng) (a : App) :
  segCoords <> [] -> segments_nonempty a ->
  segments_nonempty (push_segment segCoords a).
Proof.
  intros Hne Ha. unfold segments_nonempty, push_segment.
  rewrite rebuild_segments. simpl. apply Forall_app. split; [exact Ha|].
  constructor; [exact Hne|constructor].
Qed.

Lemma route_callback_nonempty req overview_path status (a : App) :
  segments_nonempty a ->
  segments_nonempty (route_callback req overview_path status a).
Proof.
  intro Ha. unfold route_callback.
  destruct (negb (status =? "OK")%string).
  - apply push_segment_nonempty; [discriminate|exact Ha].
  - destruct overview_path as [|p ps]; simpl; [exact Ha|].
    apply push_segment_nonempty; [discriminate|exact Ha].
Qed.

Lemma Forall_removelast {A} (P : A -> Prop) (l : list A) :
  Forall P l -> Forall P (removelast l).
Proof.
  induction 1 as [|x l Hx Hl IH]; simpl; [constructor|].
  destruct l; [constructor|]. constructor; assumption.
Qed.

Lemma undo_nonempty (a : App) :
  segments_nonempty a -> segments_nonempty (_undoLastSegment a).
Proof.
  intro Ha. unfold _undoLastSegment.
  destruct (startLatLng a); [|exact Ha].
  destruct (length (segments a) =? 0).
  - constructor.
  - unfold segments_nonempty. rewrite rebuild_segments. simpl.
    now apply Forall_removelast.
Qed.

(** The state a load leaves: the old one, or the parsed points as start
    point, last point, single segment and path. *)
Lemma load_state (mapLoaded : bool) (xml : XmlParse) (a : App) :
  fst (_loadGpxFromText mapLoaded xml a) = a \/
  exists pt pts,
    xml = Parsed (pt :: pts) /\ pts <> [] /\
    fst (_loadGpxFromText mapLoaded xml a) =
      let coords := map trkpt_coords (pt :: pts) in
      {| startLatLng := Some (trkpt_coords pt);
         lastPointLatLng := last_element coords;
         segments := [mkSegment coords];
         pathCoords := coords |}.
Proof.
  destruct xml as [|pts]; simpl; [now left|].
  destruct (Nat.ltb_spec (length pts) 2) as [Hlt|Hge]; simpl; [now left|].
  right. destruct pts as [|pt pts]; [simpl in Hge; lia|].
  exists pt, pts. split; [reflexivity|]. split.
  - destruct pts; [simpl in Hge; lia|discriminate].
  - now destruct mapLoaded.
Qed.

Lemma load_nonempty (mapLoaded : bool) (xml : XmlParse) (a : App) :
  segments_nonempty a ->
  segments_nonempty (fst (_loadGpxFromText mapLoaded xml a)).
Proof.
  intro Ha.
  destruct (load_state mapLoaded xml a) as [->|[pt [pts [_ [_ ->]]]]];
    [exact Ha|].
  constructor; [discriminate|constructor].
Qed.

Lemma step_segments_nonempty (w : World) (e : Event) :
  segments_nonempty (app w) -> segments_nonempty (app (step w e)).
Proof.
  intro Hw. destruct e as [|latLng inputType|n ov st| | |xml]; simpl.
  - exact Hw.
  - destruct (mapLoaded w); [|exact Hw]. unfold _onMapClick.
    destruct (startLatLng (app w)); [destruct (lastPointLatLng (app w))|];
      simpl; exact Hw.
  - destruct (nth_error (inflight w) n); simpl; [|exact Hw].
    now apply route_callback_nonempty.
  - now apply undo_nonempty.
  - constructor.
  - now apply load_nonempty.
Qed.

Lemma reachable_segments_nonempty (events : list Event) :
  segments_nonempty (app (run World_new events)).
Proof.
  apply (run_invariant (fun w => segments_nonempty (app w))).
  - constructor.
  - intros w e. apply step_segments_nonempty.
Qed.

(** ** Leg resolution *)

(** C1, as stated, fails: an ["OK"] answer with an empty poly-line appends
    nothing, so the leg of that click is not materialised. *)
Lemma empty_route_appends_nothing :
  segments (route_callback legAB [] "OK" startOnly) = [] /\
  segments (route_callback legAB [] "OK" startOnly) <>
  segments startOnly ++ [mkSegment (materialised_leg legAB [] "OK")].
Proof. split; [reflexivity|discriminate]. Qed.

(** The click that asked for the leg has already moved the last point: after
    an ["OK"] answer with an empty poly-line it stays on the clicked point,
    which is not on the path. *)
Lemma empty_route_last_point :
  let w := run World_new
             [LoadMap; MapClick ptA "running"; MapClick ptB "running";
              RouteDone 0 [] "OK"] in
  lastPointLatLng (app w) = Some ptB /\ pathCoords (app w) = [ptA].
Proof. split; reflexivity. Qed.

(** C1, amended: a completed leg resolution appends the straight line
    [[origin, destination]] when the status is not ["OK"], appends the
    resolved points when the status is ["OK"] and the poly-line is not
    empty, and leaves the whole state as it was when the status is ["OK"]
    and the poly-line is empty.  In the two appending cases exactly one
    segment is added at the tail and the path is recomposed from the start
    point and the new segment list. *)
Theorem route_callback_outcomes (req : Request) (overview_path : list LatLng)
    (status : string) (a : App) :
  let a' := route_callback req overview_path status a in
  if (status =? "OK")%string then
    match overview_path with
    | [] => a' = a
    | _ :: _ =>
        segments a' = segments a ++ [mkSegment overview_path] /\
        startLatLng a' = startLatLng a /\
        pathCoords a' = composePath (startLatLng a) (segments a')
    end
  else
    segments a' = segments a ++ [mkSegment [origin req; destination req]] /\
    startLatLng a' = startLatLng a /\
    pathCoords a' = composePath (startLatLng a) (segments a').
Proof.
  unfold route_callback. destruct (status =? "OK")%string; simpl.
  - destruct overview_path as [|p ps]; [reflexivity|]. simpl.
    unfold push_segment.
    rewrite rebuild_segments, rebuild_startLatLng, rebuild_pathCoords.
    simpl. auto.
  - unfold push_segment.
    rewrite rebuild_segments, rebuild_startLatLng, rebuild_pathCoords.
    simpl. auto.
Qed.

Lemma route_callback_segments req overview_path status (a : App) :
  segments (route_callback req overview_path status a) =
  segments a ++ pushed_segments req overview_path status.
Proof.
  unfold route_callback, pushed_segments, push_segment.
  destruct (negb (status =? "OK")%string).
  - now rewrite rebuild_segments.
  - destruct (length overview_path =? 0).
    + now rewrite app_nil_r.
    + now rewrite rebuild_segments.
Qed.

Lemma route_callback_startLatLng req overview_path status (a : App) :
  startLatLng (route_callback req overview_path status a) = startLatLng a.
Proof.
  unfold route_callback, push_segment.
  destruct (negb (status =? "OK")%string).
  - now rewrite rebuild_startLatLng.
  - destruct (length overview_path =? 0); [reflexivity|].
    now rewrite rebuild_startLatLng.
Qed.

Lemma route_callback_pathCoords req overview_path status (a : App) :
  pushed_segments req overview_path status <> [] ->
  pathCoords (route_callback req overview_path status a) =
  composePath (startLatLng a)
    (segments a ++ pushed_segments req overview_path status).
Proof.
  unfold route_callback, pushed_segments, push_segment.
  destruct (negb (status =? "OK")%string).
  - intros _. now rewrite rebuild_pathCoords.
  - destruct (length overview_path =? 0); [congruence|].
    intros _. now rewrite rebuild_pathCoords.
Qed.

Lemma route_callback_no_start req overview_path status (a : App) :
  startLatLng a = None -> pathCoords a = [] ->
  pathCoords (route_callback req overview_path status a) = [].
Proof.
  intros Hs Hp. unfold route_callback, push_segment, _rebuildPathFromSegments.
  simpl. rewrite Hs.
  destruct (negb (status =? "OK")%string); [reflexivity|].
  destruct (length overview_path =? 0); [exact Hp|reflexivity].
Qed.

(** C2, as stated, fails.  First run: two clicks, then a reset while the leg
    from [ptA] to [ptB] is still pending; its answer then puts a segment
    into the emptied store.  Second run: the leg to [ptC] is pending when the
    leg to [ptB] is undone; its answer is appended and changes the path. *)
Lemma stale_response_is_applied :
  (let w := run World_new
              [LoadMap; MapClick ptA "running"; MapClick ptB "running"; ResetClick] in
   nth_error (inflight w) 0 = Some legAB /\
   segments (app (step w (RouteDone 0 [] "ZERO_RESULTS"))) <> segments (app w)) /\
  (let w := run World_new
              [LoadMap; MapClick ptA "running"; MapClick ptB "running";
               RouteDone 0 [] "ZERO_RESULTS";
               MapClick ptC "running"; UndoClick] in
   nth_error (inflight w) 0 = Some legBC /\
   pathCoords (app (step w (RouteDone 0 [] "ZERO_RESULTS"))) = [ptA; ptC] /\
   pathCoords (app (step w (RouteDone 0 [] "ZERO_RESULTS"))) <> pathCoords (app w)).
Proof.
  split; (split; [reflexivity|]); [|split; [reflexivity|]]; discriminate.
Qed.

(** C2, amended: a response that arrives after [undo()] or [reset()] is
    handled like any other.  The callback of its request runs on the state
    the undo or reset left, and appends its segment (none only for an
    ["OK"] answer with an empty poly-line).  After a reset there is no
    start point and the composed path stays empty, though the segment is
    stored; after an undo the start point is as the undo left it, and when
    a segment is appended the path is recomposed with it at the tail. *)
Theorem late_response_is_applied (w : World) (n : nat) (req : Request)
    (overview_path : list LatLng) (status : string) :
  nth_error (inflight w) n = Some req ->
  (let w1 := step w ResetClick in
   let w2 := step w1 (RouteDone n overview_path status) in
   segments (app w2) = pushed_segments req overview_path status /\
   startLatLng (app w2) = None /\
   pathCoords (app w2) = []) /\
  (let w1 := step w UndoClick in
   let w2 := step w1 (RouteDone n overview_path status) in
   segments (app w2) =
     segments (app w1) ++ pushed_segments req overview_path status /\
   startLatLng (app w2) = startLatLng (app w1) /\
   (pushed_segments req overview_path status <> [] ->
    pathCoords (app w2) = composePath (startLatLng (app w1)) (segments (app w2)))).
Proof.
  intro Hreq. split; simpl; rewrite Hreq; simpl.
  - rewrite route_callback_segments, route_callback_startLatLng. simpl.
    repeat split. now apply route_callback_no_start.
  - rewrite route_callback_segments, route_callback_startLatLng.
    repeat split. intro Hpushed.
    now rewrite route_callback_pathCoords.
Qed.

Lemma late_response_is_applied_witness :
  let w := run World_new [LoadMap; MapClick ptA "running"; MapClick ptB "running"] in
  segments (app (step (step w ResetClick) (RouteDone 0 [] "ZERO_RESULTS"))) =
    [mkSegment [ptA; ptB]] /\
  pathCoords (app (step (step w ResetClick) (RouteDone 0 [] "ZERO_RESULTS"))) = [].
Proof.
  intro w.
  destruct (late_response_is_applied w 0 legAB [] "ZERO_RESULTS" eq_refl)
    as [[Hseg [_ Hpath]] _].
  split; [exact Hseg|exact Hpath].
Defined.

(** ** Start point and segments *)

(** No run reaches a state with a start point and no last point: the
    second branch of [_onMapClick] always has an origin. *)
Lemma lastPoint_defined (events : list Event) :
  let a := app (run World_new events) in
  startLatLng a <> None -> lastPointLatLng a <> None.
Proof.
  apply (run_invariant
           (fun w => startLatLng (app w) <> None -> lastPointLatLng (app w) <> None)).
  - simpl. congruence.
  - intros w e IH. destruct e as [|latLng inputType|n ov st| | |xml]; simpl.
    + exact IH.
    + destruct (mapLoaded w); [|exact IH]. unfold _onMapClick.
      destruct (startLatLng (app w)); [destruct (lastPointLatLng (app w))|];
        simpl; congruence.
    + destruct (nth_error (inflight w) n) as [req|]; [|exact IH]. simpl.
      unfold route_callback, push_segment.
      assert (Hpush : forall segCoords,
        startLatLng (_rebuildPathFromSegments
          (set_segments (segments (app w) ++ [mkSegment segCoords]) (app w))) <> None ->
        lastPointLatLng (_rebuildPathFromSegments
          (set_segments (segments (app w) ++ [mkSegment segCoords]) (app w))) <> None).
      { intros segCoords. rewrite rebuild_startLatLng. simpl.
        destruct (startLatLng (app w)) as [s|] eqn:Hs; [intros _|congruence].
        rewrite (rebuild_lastPointLatLng _ s) by exact Hs. simpl. rewrite Hs.
        simpl. rewrite last_element_cons. discriminate. }
      destruct (negb (st =? "OK")%string); [apply Hpush|].
      destruct (length ov =? 0); [exact IH|apply Hpush].
    + unfold _undoLastSegment.
      destruct (startLatLng (app w)) as [s|] eqn:Hs; [|congruence].
      destruct (length (segments (app w)) =? 0); [simpl; congruence|].
      intros _.
      rewrite (rebuild_lastPointLatLng _ s) by exact Hs. simpl. rewrite Hs.
      simpl. rewrite last_element_cons. discriminate.
    + congruence.
    + destruct (load_state (mapLoaded w) xml (app w))
        as [->|[pt [pts [_ [_ ->]]]]]; [exact IH|].
      intros _. cbv zeta. cbn [lastPointLatLng map].
      rewrite last_element_cons. discriminate.
Qed.

(** In every reachable state the start point is absent exactly when the
    stored path is empty. *)
Lemma start_absent_iff_path_empty (events : list Event) :
  let a := app (run World_new events) in
  startLatLng a = None <-> pathCoords a = [].
Proof.
  apply (run_invariant
           (fun w => startLatLng (app w) = None <-> pathCoords (app w) = [])).
  - simpl. tauto.
  - intros w e IH. destruct e as [|latLng inputType|n ov st| | |xml]; simpl.
    + exact IH.
    + destruct (mapLoaded w); [|exact IH]. unfold _onMapClick.
      destruct (startLatLng (app w)) eqn:Hs;
        [destruct (lastPointLatLng (app w))|]; simpl;
        try rewrite Hs; try exact IH.
      split; discriminate.
    + destruct (nth_error (inflight w) n) as [req|]; [|exact IH]. simpl.
      unfold route_callback, push_segment.
      assert (Hpush : forall a, startLatLng a = startLatLng (app w) ->
        startLatLng (_rebuildPathFromSegments a) = None <->
        pathCoords (_rebuildPathFromSegments a) = []).
      { intros a Ha. rewrite rebuild_startLatLng, rebuild_pathCoords, Ha.
        destruct (startLatLng (app w)); simpl; split; congruence. }
      destruct (negb (st =? "OK")%string); [now apply Hpush|].
      destruct (length ov =? 0); [exact IH|now apply Hpush].
    + unfold _undoLastSegment.
      destruct (startLatLng (app w)) as [s|] eqn:Hs; [|rewrite Hs; exact IH].
      destruct (length (segments (app w)) =? 0); [simpl; tauto|].
      rewrite rebuild_startLatLng, rebuild_pathCoords. simpl. rewrite Hs.
      simpl. split; discriminate.
    + tauto.
    + destruct (load_state (mapLoaded w) xml (app w))
        as [->|[pt [pts [_ [_ ->]]]]]; [exact IH|].
      split; discriminate.
Qed.

(** C3, as stated, fails: after the first click the start point is set and
    there is no segment. *)
Lemma start_set_without_segments :
  ~ (forall w, reachable w ->
       (startLatLng (app w) = None <-> segments (app w) = [])).
Proof.
  intro H.
  destruct (H (run World_new [LoadMap; MapClick ptA "running"])) as [_ Habsent].
  - now exists [LoadMap; MapClick ptA "running"].
  - discriminate (Habsent eq_refl).
Qed.

Lemma on_time_run_invariant (P : World -> Prop) :
  P World_new ->
  (forall w e, P w -> on_time w e = true -> P (step w e)) ->
  forall events,
    answered_with_start World_new events = true -> P (run World_new events).
Proof.
  intros H0 Hstep events. unfold run.
  generalize World_new H0. induction events as [|e events IH]; intros w Hw Hok.
  - exact Hw.
  - simpl in Hok. apply andb_prop in Hok as [He Hrest].
    simpl. apply IH; [apply Hstep; assumption|exact Hrest].
Qed.

(** The store is coherent when an absent start point comes with no segment
    and the stored path is the composition of start point and segments. *)
Lemma step_coherent (w : World) (e : Event) :
  (startLatLng (app w) = None -> segments (app w) = []) /\
  pathCoords (app w) = composePath (startLatLng (app w)) (segments (app w)) ->
  on_time w e = true ->
  (startLatLng (app (step w e)) = None -> segments (app (step w e)) = []) /\
  pathCoords (app (step w e)) =
    composePath (startLatLng (app (step w e))) (segments (app (step w e))).
Proof.
  intros [IH Hpath] Hok. unfold on_time in Hok.
  destruct e as [|latLng inputType|n ov st| | |xml]; simpl.
  - now split.
  - destruct (mapLoaded w); [|now split]. unfold _onMapClick.
    destruct (startLatLng (app w)) eqn:Hs;
      [destruct (lastPointLatLng (app w))|]; simpl; rewrite ?Hs;
      try (split; [discriminate|exact Hpath]).
    split; [discriminate|]. now rewrite IH.
  - destruct (nth_error (inflight w) n) as [req|]; [|now split]. simpl.
    rewrite route_callback_startLatLng, route_callback_segments.
    destruct (startLatLng (app w)) eqn:Hs; [|discriminate].
    split; [discriminate|].
    destruct (pushed_segments req ov st) as [|seg segs] eqn:Hpushed.
    + rewrite app_nil_r.
      unfold route_callback, pushed_segments in *.
      destruct (negb (st =? "OK")%string); [discriminate|].
      destruct (length ov =? 0); [exact Hpath|discriminate].
    + rewrite route_callback_pathCoords, Hpushed, Hs by congruence.
      reflexivity.
  - unfold _undoLastSegment.
    destruct (startLatLng (app w)) as [s|] eqn:Hs;
      [|rewrite Hs; now split].
    destruct (length (segments (app w)) =? 0); [now split|].
    rewrite rebuild_startLatLng, rebuild_segments, rebuild_pathCoords. simpl.
    rewrite Hs. split; [discriminate|reflexivity].
  - now split.
  - destruct (load_state (mapLoaded w) xml (app w))
      as [->|[pt [pts [_ [_ ->]]]]]; [now split|].
    split; [discriminate|]. simpl. now rewrite app_nil_r.
Qed.

(** In a run whose answers all come on time, the stored path is the
    composition of the stored start point and segments. *)
Lemma stored_path_is_composition (events : list Event) :
  answered_with_start World_new events = true ->
  let a := app (run World_new events) in
  pathCoords a = composePath (startLatLng a) (segments a).
Proof.
  intro Hok.
  apply (on_time_run_invariant
           (fun w => (startLatLng (app w) = None -> segments (app w) = []) /\
                     pathCoords (app w) =
                       composePath (startLatLng (app w)) (segments (app w))));
    [split; reflexivity|apply step_coherent|exact Hok].
Qed.

(** C3, amended: in every state reached by a run in which each answer of the
    directions service is delivered while a start point is set, an absent
    start point implies an empty segment list.  (The converse is not
    claimed: the first click sets the start point and adds no segment.) *)
Theorem no_start_no_segments (events : list Event) :
  answered_with_start World_new events = true ->
  startLatLng (app (run World_new events)) = None ->
  segments (app (run World_new events)) = [].
Proof.
  intro Hok.
  apply (on_time_run_invariant
           (fun w => (startLatLng (app w) = None -> segments (app w) = []) /\
                     pathCoords (app w) =
                       composePath (startLatLng (app w)) (segments (app w))));
    [split; reflexivity|apply step_coherent|exact Hok].
Qed.

Lemma no_start_no_segments_witness :
  segments (app (run World_new
    [LoadMap; MapClick ptA "running"; MapClick ptB "running";
     RouteDone 0 [ptA; ptD; ptB] "OK"; UndoClick; UndoClick])) = [].
Proof.
  apply no_start_no_segments; reflexivity.
Defined.

(** ** The composed path *)

(** C4: whatever operations ran before, recomposition yields the start point
    followed by, for each stored segment in order, all of its points except
    the first; its length is 1 plus the sum of (segment length - 1) when a
    start point is set and 0 when none is; every stored segment is a
    non-empty point sequence. *)
Theorem recomposition_after_any_run (events : list Event) :
  let a := app (run World_new events) in
  pathCoords (_rebuildPathFromSegments a) =
    composePath (startLatLng a) (segments a) /\
  Z.of_nat (length (pathCoords (_rebuildPathFromSegments a))) =
    match startLatLng a with
    | Some _ => (1 + joined_points (segments a))%Z
    | None => 0%Z
    end /\
  segments_nonempty a.
Proof.
  intro a. pose proof (reachable_segments_nonempty events) as Hne.
  fold a in Hne. rewrite rebuild_pathCoords. repeat split; [|exact Hne].
  destruct (startLatLng a) as [s|]; [|reflexivity].
  now apply composePath_length.
Qed.

(** ** Undo *)

(** C7, as stated, fails: when a late answer has put a segment into a store
    that has no start point, the segment list is non-empty and [undo()]
    removes nothing. *)
Lemma undo_without_start_removes_nothing :
  let w := run World_new
             [LoadMap; MapClick ptA "running"; MapClick ptB "running"; ResetClick;
              RouteDone 0 [] "ZERO_RESULTS"] in
  segments (app w) = [mkSegment [ptA; ptB]] /\
  segments (_undoLastSegment (app w)) <> removelast (segments (app w)).
Proof. split; [reflexivity|discriminate]. Qed.

(** C7, amended: [undo()] on a store with the start point set and a
    non-empty segment list removes exactly the last segment and recomposes
    the path; with the start point set and no segment it yields the fully
    empty store, as [reset()] does; with no start point set it changes
    nothing.  In particular, from a store with the start point set and
    exactly one segment, one [undo()] yields the start-only store and a
    second one the fully empty store. *)
Theorem undo_cases (a : App) (s : LatLng) (l : option LatLng)
    (seg : Segment) (p : list LatLng) :
  _undoLastSegment a =
    match startLatLng a, segments a with
    | None, _ => a
    | Some _, [] => App_new
    | Some start, _ :: _ =>
        let path := composePath (Some start) (removelast (segments a)) in
        {| startLatLng := Some start; lastPointLatLng := last_element path;
           segments := removelast (segments a); pathCoords := path |}
    end /\
  _resetCourse a = App_new /\
  _undoLastSegment (mkApp (Some s) l [seg] p) = mkApp (Some s) (Some s) [] [s] /\
  _undoLastSegment (_undoLastSegment (mkApp (Some s) l [seg] p)) = App_new.
Proof.
  split; [|repeat split].
  unfold _undoLastSegment.
  destruct (startLatLng a) as [start|] eqn:Hs; [|reflexivity].
  destruct (segments a) as [|seg0 segs] eqn:Hsegs; [reflexivity|].
  simpl Nat.eqb. cbv iota.
  now rewrite (rebuild_with_start _ start).
Qed.

Lemma nth_error_removelast {A} (l : list A) (i : nat) :
  i < length l - 1 -> nth_error (removelast l) i = nth_error l i.
Proof.
  revert i; induction l as [|x l IH]; intros i Hi; [reflexivity|].
  destruct l as [|y l]; [simpl in Hi; lia|].
  change (removelast (x :: y :: l)) with (x :: removelast (y :: l)).
  destruct i as [|i]; [reflexivity|].
  change (nth_error (removelast (y :: l)) i = nth_error (y :: l) i).
  apply IH. simpl in *. lia.
Qed.

(** C10: on a store whose segment list is not empty, [undo()] leaves the
    start point as it was and leaves every segment but the last one in
    place; the list loses at most its tail. *)
Theorem undo_frame (a : App) :
  segments a <> [] ->
  startLatLng (_undoLastSegment a) = startLatLng a /\
  (forall i, i < length (segments a) - 1 ->
     nth_error (segments (_undoLastSegment a)) i = nth_error (segments a) i) /\
  length (segments a) - 1 <= length (segments (_undoLastSegment a))
    <= length (segments a).
Proof.
  intro Hne. unfold _undoLastSegment.
  destruct (startLatLng a) as [s|] eqn:Hs;
    [|split; [exact Hs|split; [reflexivity|lia]]].
  destruct (segments a) as [|seg segs] eqn:Hsegs; [congruence|].
  simpl Nat.eqb. cbv iota.
  rewrite rebuild_startLatLng, rebuild_segments. simpl startLatLng.
  split; [exact Hs|]. cbn [segments set_segments]. split.
  - intros i Hi. now apply nth_error_removelast.
  - assert (Hlen : length (removelast (seg :: segs)) = length segs).
    { rewrite removelast_firstn_len, length_firstn. simpl. lia. }
    rewrite Hlen. simpl. lia.
Qed.

Lemma undo_frame_witness :
  startLatLng (_undoLastSegment oneLeg) = Some ptA /\
  length (segments (_undoLastSegment oneLeg)) <= 1.
Proof.
  destruct (undo_frame oneLeg) as [Hstart [_ [_ Hlen]]]; [discriminate|].
  split; [exact Hstart|exact Hlen].
Defined.

(** ** Import *)

(** Once the map is there, loading is all or nothing: for every text,
    whatever the parser makes of it, the load either replaces the course by
    the parsed points as one segment, or fails and leaves the state as it
    was: with the "no valid track points" alert when fewer than two [trkpt]
    elements are found, with the "error while reading" alert when parsing
    raises. *)
Lemma import_all_or_nothing (parseFromString : string -> XmlParse)
    (gpxText : string) (w : World) :
  mapLoaded w = true ->
  let xml := parseFromString gpxText in
  let a' := fst (_loadGpxFromText true xml (app w)) in
  match snd (_loadGpxFromText true xml (app w)) with
  | LoadedSuccessfully =>
      exists pts, xml = Parsed pts /\ 2 <= length pts /\
        startLatLng a' = hd_error (map trkpt_coords pts) /\
        segments a' = [mkSegment (map trkpt_coords pts)] /\
        pathCoords a' = map trkpt_coords pts /\
        pathCoords a' = composePath (startLatLng a') (segments a')
  | NoValidTrackPoints =>
      (exists pts, xml = Parsed pts /\ length pts < 2) /\
      a' = app w /\ step w (GpxLoaded xml) = w
  | ErrorWhileReading =>
      xml = ParseThrows /\ a' = app w /\ step w (GpxLoaded xml) = w
  end.
Proof.
  intros Hmap xml a'. subst a'. destruct w as [a pending loaded].
  simpl in Hmap. subst loaded. simpl app.
  destruct xml as [|pts] eqn:Hxml.
  - simpl. auto.
  - unfold _loadGpxFromText, step. simpl app. simpl mapLoaded.
    unfold _loadGpxFromText.
    destruct (Nat.ltb_spec (length pts) 2) as [Hlt|Hge]; simpl.
    + split; [now exists pts|]. auto.
    + exists pts. repeat split; try assumption.
      destruct pts as [|pt pts]; [simpl in Hge; lia|].
      simpl. now rewrite app_nil_r.
Qed.

(** C8 does not hold when a text is loaded before the map exists (the
    position request of [_initMap] has not been answered yet).  The handler
    finds two track points, clears the course and stores the new one, then
    [this.#map.panTo] raises; the [catch] gives the "error while reading"
    alert, and start point, segments and path stay replaced. *)
Theorem import_before_map_replaces_store :
  mapLoaded World_new = false /\
  _loadGpxFromText (mapLoaded World_new)
    (Parsed [mkTrkpt 35 126; mkTrkpt 35 126.5]) (app World_new) =
    (oneLeg, ErrorWhileReading) /\
  app (step World_new (GpxLoaded (Parsed [mkTrkpt 35 126; mkTrkpt 35 126.5])))
    <> app World_new.
Proof.
  split; [reflexivity|]. split; [reflexivity|]. discriminate.
Qed.

(** The same for any course and any two points or more. *)
Lemma import_without_map (pts : list Trkpt) (a : App) :
  2 <= length pts ->
  snd (_loadGpxFromText false (Parsed pts) a) = ErrorWhileReading /\
  segments (fst (_loadGpxFromText false (Parsed pts) a)) =
    [mkSegment (map trkpt_coords pts)] /\
  pathCoords (fst (_loadGpxFromText false (Parsed pts) a)) =
    map trkpt_coords pts.
Proof.
  intro Hge. unfold _loadGpxFromText.
  destruct (Nat.ltb_spec (length pts) 2); [lia|]. now repeat split.
Qed.

(** ** Binary64 arithmetic *)

(** The square of a number of magnitude at most 1 does not overflow: the
    exponent that rounding settles on stays far below the largest one. *)

Section SquareFinite.
Local Open Scope Z_scope.

Lemma Zdigits2_log2 (m : Z) : 0 < m -> Zdigits2 m = Z.log2 m + 1.
Proof.
  destruct m as [|p|p]; try lia. intros _. simpl.
  induction p as [p IH|p IH|]; simpl; try reflexivity.
  - destruct p; simpl in *; lia.
  - destruct p; simpl in *; lia.
Qed.

Lemma Zdigits2_nonneg (m : Z) : 0 <= Zdigits2 m.
Proof. destruct m; simpl; lia. Qed.

Lemma Zdigits2_mul (m : positive) :
  Zdigits2 (Z.pos (m * m)) <= 2 * Zdigits2 (Z.pos m).
Proof.
  rewrite !Zdigits2_log2 by lia. rewrite Pos2Z.inj_mul.
  pose proof (Z.log2_mul_above (Z.pos m) (Z.pos m)). lia.
Qed.

Lemma Zdigits2_succ (m : Z) : 0 <= m -> Zdigits2 (m + 1) <= Zdigits2 m + 1.
Proof.
  intro Hm. destruct (Z.eq_dec m 0) as [->|Hne]; [simpl; lia|].
  rewrite !Zdigits2_log2 by lia.
  pose proof (Z.log2_succ_le m). unfold Z.succ in *. lia.
Qed.

Lemma shr_1_small (d : Z) (mrs : shr_record) : small d mrs -> small d (shr_1 mrs).
Proof.
  unfold small. destruct mrs as [m r s]. simpl.
  destruct m as [|[p|p|]|p]; simpl; try lia.
Qed.

Lemma iter_pos_small (d : Z) (p : positive) (mrs : shr_record) :
  small d mrs -> small d (iter_pos shr_1 p mrs).
Proof.
  revert mrs. induction p as [p IH|p IH|]; intros mrs H; simpl.
  - apply IH, IH, shr_1_small, H.
  - apply IH, IH, H.
  - apply shr_1_small, H.
Qed.

Lemma shr_fexp_small (d b m e : Z) (l : SpecFloat.location) :
  0 <= m -> Zdigits2 m <= d -> e <= b -> d + e - prec <= b -> SpecFloat.emin prec emax <= b ->
  small d (fst (shr_fexp prec emax m e l)) /\ snd (shr_fexp prec emax m e l) <= b.
Proof.
  intros Hm Hd He Hb Hemin. unfold shr_fexp, shr.
  assert (Hrec : small d (shr_record_of_loc m l)).
  { unfold small. destruct l as [|[| |]]; simpl; lia. }
  assert (Hfexp : SpecFloat.fexp prec emax (Zdigits2 m + e) <= b).
  { unfold SpecFloat.fexp, SpecFloat.emin in *. lia. }
  destruct (SpecFloat.fexp prec emax (Zdigits2 m + e) - e) as [|p|p] eqn:Hn; simpl.
  - split; [exact Hrec|lia].
  - split; [now apply iter_pos_small|lia].
  - split; [exact Hrec|lia].
Qed.

Lemma round_nearest_even_small (d : Z) (mrs : shr_record) :
  small d mrs ->
  0 <= round_nearest_even (shr_m mrs) (loc_of_shr_record mrs) /\
  Zdigits2 (round_nearest_even (shr_m mrs) (loc_of_shr_record mrs)) <= d + 1.
Proof.
  intros [H0 Hd]. unfold round_nearest_even.
  pose proof (Zdigits2_succ (shr_m mrs) H0).
  destruct (loc_of_shr_record mrs) as [|[| |]]; try (split; lia).
  destruct (Z.even (shr_m mrs)); split; lia.
Qed.

Lemma SFmul_square_finite (s : bool) (m : positive) (e : Z) :
  Z.pos (digits2_pos m) <= 53 -> e <= -52 ->
  match SFmul prec emax (S754_finite s m e) (S754_finite s m e) with
  | S754_zero _ | S754_finite _ _ _ => true
  | _ => false
  end = true.
Proof.
  intros Hdig He. unfold SFmul, binary_round_aux.
  pose proof (Zdigits2_mul m) as Hmm.
  change (Zdigits2 (Z.pos m)) with (Z.pos (digits2_pos m)) in Hmm.
  assert (Hemin : SpecFloat.emin prec emax = -1074) by reflexivity.
  assert (Hprec : prec = 53) by reflexivity.
  assert (Hemax : emax = 1024) by reflexivity.
  destruct (shr_fexp_small 106 (-51) (Z.pos (m * m)) (e + e) loc_Exact)
    as [H1 H1e]; try lia.
  destruct (shr_fexp prec emax (Z.pos (m * m)) (e + e) loc_Exact) as [mrs' e'].
  simpl fst in H1; simpl snd in H1e.
  destruct (round_nearest_even_small _ _ H1) as [H2 H2d].
  destruct (shr_fexp_small 107 3 _ e' loc_Exact H2 H2d)
    as [H3 H3e]; try lia.
  destruct (shr_fexp prec emax _ e' loc_Exact) as [mrs'' e''].
  simpl fst in H3; simpl snd in H3e. destruct H3 as [H3 _].
  destruct (shr_m mrs'') as [|p|p]; [reflexivity| |lia].
  destruct (Z.leb_spec e'' (emax - prec)); [reflexivity|lia].
Qed.

End SquareFinite.

(** Rounding to nearest is blind to the sign; addition and multiplication
    commute.  Proved from the specification of the primitive operations. *)

Section Binary64.

Local Open Scope float_scope.

Lemma binary_round_aux_opp (s : bool) (m e : Z) (l : SpecFloat.location) :
  binary_round_aux prec emax (negb s) m e l =
  SFopp (binary_round_aux prec emax s m e l).
Proof.
  unfold binary_round_aux.
  destruct (shr_fexp prec emax m e l) as [mrs' e'].
  destruct (shr_fexp prec emax _ e' loc_Exact) as [mrs'' e''].
  destruct (shr_m mrs''); [reflexivity| |reflexivity].
  now destruct (Z.leb e'' (emax - prec)).
Qed.

Lemma binary_round_opp (s : bool) (m : positive) (e : Z) :
  binary_round prec emax (negb s) m e = SFopp (binary_round prec emax s m e).
Proof.
  unfold binary_round.
  destruct (shl_align m e _) as [mz ez]. apply binary_round_aux_opp.
Qed.

Lemma opp_involutive (x : float) : - - x = x.
Proof.
  apply Prim2SF_inj. rewrite !opp_spec.
  destruct (Prim2SF x) as [s|s| |s m e]; simpl; now rewrite ?negb_involutive.
Qed.

Lemma abs_opp (x : float) : abs (- x) = abs x.
Proof.
  apply Prim2SF_inj. rewrite !abs_spec, opp_spec.
  now destruct (Prim2SF x).
Qed.

Lemma opp_mul (x y : float) : (- x) * y = - (x * y).
Proof.
  apply Prim2SF_inj. rewrite opp_spec, !mul_spec, opp_spec.
  destruct (Prim2SF x) as [sx|sx| |sx mx ex], (Prim2SF y) as [sy|sy| |sy my ey];
    simpl; try reflexivity; try (now destruct sx, sy).
  unfold SF64mul, SFmul.
  replace (xorb (negb sx) sy) with (negb (xorb sx sy)) by now destruct sx, sy.
  apply binary_round_aux_opp.
Qed.

Lemma opp_div (x y : float) : (- x) / y = - (x / y).
Proof.
  apply Prim2SF_inj. rewrite opp_spec, !div_spec, opp_spec.
  destruct (Prim2SF x) as [sx|sx| |sx mx ex], (Prim2SF y) as [sy|sy| |sy my ey];
    simpl; try reflexivity; try (now destruct sx, sy).
  unfold SF64div, SFdiv.
  destruct (SFdiv_core_binary prec emax (Z.pos mx) ex (Z.pos my) ey)
    as [[mz ez] lz].
  replace (xorb (negb sx) sy) with (negb (xorb sx sy)) by now destruct sx, sy.
  apply binary_round_aux_opp.
Qed.

Lemma mul_comm (x y : float) : x * y = y * x.
Proof.
  apply Prim2SF_inj. rewrite !mul_spec.
  destruct (Prim2SF x) as [sx|sx| |sx mx ex], (Prim2SF y) as [sy|sy| |sy my ey];
    simpl; try reflexivity; try (now destruct sx, sy).
  unfold SF64mul, SFmul. now rewrite xorb_comm, Pos.mul_comm, Z.add_comm.
Qed.

Lemma square_opp (x : float) : (- x) * (- x) = x * x.
Proof.
  now rewrite opp_mul, (mul_comm x (- x)), opp_mul, opp_involutive.
Qed.

(** [y - x] is the opposite of [x - y], unless both are [+0]. *)
Lemma sub_antisym (x y : float) :
  y - x = - (x - y) \/ (x - y = 0 /\ y - x = 0).
Proof.
  assert (H : SF64sub (Prim2SF y) (Prim2SF x) =
                SFopp (SF64sub (Prim2SF x) (Prim2SF y)) \/
              (SF64sub (Prim2SF x) (Prim2SF y) = S754_zero false /\
               SF64sub (Prim2SF y) (Prim2SF x) = S754_zero false)).
  { destruct (Prim2SF x) as [sx|sx| |sx mx ex],
             (Prim2SF y) as [sy|sy| |sy my ey];
      simpl; try (left; reflexivity); try (destruct sx, sy; simpl; auto; fail).
    unfold SF64sub, SFsub. rewrite (Z.min_comm ey ex).
    set (ez := Z.min ex ey).
    set (a := cond_Zopp sx (Z.pos (fst (shl_align mx ex ez)))).
    set (b := cond_Zopp sy (Z.pos (fst (shl_align my ey ez)))).
    replace (b - a)%Z with (- (a - b))%Z by lia.
    destruct (a - b)%Z as [|d|d]; simpl; auto; left;
      [apply (binary_round_opp false)|apply (binary_round_opp true)]. }
  destruct H as [H|[H1 H2]].
  - left. apply Prim2SF_inj. now rewrite opp_spec, !sub_spec.
  - right. split; apply Prim2SF_inj; now rewrite sub_spec.
Qed.

(** Two numbers added to [0] one after the other, in either order. *)
Lemma add_from_zero_swap (x y : float) : (0 + x) + y = (0 + y) + x.
Proof.
  apply Prim2SF_inj. rewrite !add_spec.
  change (Prim2SF 0) with (S754_zero false).
  destruct (Prim2SF x) as [sx|sx| |sx mx ex], (Prim2SF y) as [sy|sy| |sy my ey];
    simpl; try reflexivity; try (now destruct sx, sy); try (now destruct sx);
    try (now destruct sy).
  unfold SF64add, SFadd. now rewrite Z.min_comm, Z.add_comm.
Qed.

Lemma sub_self (x : float) : finite x = true -> x - x = 0.
Proof.
  unfold finite. intro Hx. apply Prim2SF_inj. rewrite sub_spec.
  destruct (Prim2SF x) as [s|s| |s m e]; try discriminate.
  - now destruct s.
  - unfold SF64sub, SFsub. rewrite Z.sub_diag. reflexivity.
Qed.

Lemma zero_plus_times_zero (x : float) : finite x = true -> 0 + x * 0 = 0.
Proof.
  unfold finite. intro Hx. apply Prim2SF_inj.
  rewrite add_spec, mul_spec.
  destruct (Prim2SF x) as [s|s| |s m e]; try discriminate;
    now destruct s.
Qed.

Lemma square_finite (c : float) : (abs c <=? 1) = true -> finite (c * c) = true.
Proof.
  rewrite leb_spec, abs_spec. unfold finite. rewrite mul_spec.
  pose proof (Prim2SF_valid c) as Hvalid.
  destruct (Prim2SF c) as [s|s| |s m e]; try discriminate; [reflexivity|].
  change (Prim2SF 1) with (S754_finite false 4503599627370496 (-52)).
  unfold SFleb, SFabs, SFcompare. intro Hle.
  apply SFmul_square_finite.
  - simpl in Hvalid. unfold bounded, canonical_mantissa, SpecFloat.fexp, SpecFloat.emin in Hvalid.
    apply andb_prop in Hvalid as [Hcan _]. apply Z.eqb_eq in Hcan.
    unfold prec, emax in *. lia.
  - destruct (Z.compare_spec e (-52)); try discriminate; lia.
Qed.

Lemma float_neq (x y : float) : PrimFloat.Leibniz.eqb x y = false -> x <> y.
Proof.
  intros Hxy Heq. apply FloatAxioms.Leibniz.eqb_spec in Heq. congruence.
Qed.

End Binary64.

(** ** Distances *)

Section GeodesyFacts.

Variable M : MathObject.

Local Open Scope float_scope.

Lemma sum_legs_fold (path : list LatLng) (sum : float) :
  sum_legs M sum path = fold_left PrimFloat.add (leg_distances M path) sum.
Proof.
  revert sum. induction path as [|p path IH]; intro sum; [reflexivity|].
  destruct path as [|q path]; [reflexivity|].
  change (sum_legs M (sum + _distanceBetween M p q) (q :: path) =
          fold_left PrimFloat.add (leg_distances M (q :: path))
            (sum + _distanceBetween M p q)).
  apply IH.
Qed.

(** Fewer than two points: no distance.  Two points or more: the distances
    of the consecutive pairs, added from the left starting at [0], over
    1000. *)
Lemma total_distance_sum (path : list LatLng) :
  totalDistanceKm M path =
  if (length path <? 2)%nat then 0
  else fold_left PrimFloat.add (leg_distances M path) 0 / 1000.
Proof.
  unfold totalDistanceKm. now rewrite sum_legs_fold.
Qed.

Lemma valid_coordinates_finite (p : LatLng) :
  valid_coordinates p = true ->
  finite (lat p) = true /\ finite (lng p) = true.
Proof.
  unfold valid_coordinates, finite. rewrite !andb_true_iff, !leb_spec.
  change (Prim2SF (-90)) with (SFopp (Prim2SF 90)).
  change (Prim2SF (-180)) with (SFopp (Prim2SF 180)).
  intros [[[H1 H2] H3] H4]. split.
  - destruct (Prim2SF (lat p)) as [s|[|]| |s m e]; try reflexivity;
      discriminate.
  - destruct (Prim2SF (lng p)) as [s|[|]| |s m e]; try reflexivity;
      discriminate.
Qed.

(** A point is at distance [+0] from itself, as soon as its coordinates are
    numbers and the cosine of its latitude has magnitude at most 1. *)
Lemma distance_same_point (p : LatLng) :
  ecma_special_values M ->
  finite (lat p) = true -> finite (lng p) = true ->
  (abs (Math_cos M (toRad (lat p))) <=? 1) = true ->
  _distanceBetween M p p = 0.
Proof.
  intros [Hsin Hpow Hatan] Hlat Hlng Hcos. apply square_finite in Hcos.
  unfold _distanceBetween, haversine_a.
  rewrite (sub_self _ Hlat), (sub_self _ Hlng).
  change (toRad 0 / 2) with 0. rewrite Hsin, Hpow.
  rewrite (zero_plus_times_zero _ Hcos).
  change (sqrt 0) with 0. change (sqrt (1 - 0)) with 1.
  rewrite Hatan. reflexivity.
Qed.

End GeodesyFacts.

(** C5, as stated, fails in its last part.  [north_2_5] and [south_2_5] have
    valid coordinates and lie opposite each other.  With sine and cosine
    rounded to nearest, [sin² + cos²] comes out as 1.0000000000000002, the
    term [1 - a] is negative, its square root is [NaN] and so is the
    distance. *)
Lemma antipodal_distance_is_nan :
  valid_coordinates north_2_5 = true /\
  valid_coordinates south_2_5 = true /\
  haversine_a antipodeMath north_2_5 south_2_5 = 0x1.0000000000001p+0%float /\
  is_nan (_distanceBetween antipodeMath north_2_5 south_2_5) = true.
Proof. repeat split; vm_compute; reflexivity. Qed.

(** C5, amended: the total is 0 for a path of fewer than two points and, for
    two points or more, the sum from the left of the distances of the
    consecutive pairs, divided by 1000, where the distance is the
    haversine formula [R * 2 * atan2(√a, √(1 - a))] with [R = 6371000]; a
    point with valid coordinates is at distance [+0] from itself, for an
    engine that has the special values ECMAScript fixes and whose cosine at
    the point's latitude has magnitude at most 1.  (That the distance is
    never [NaN] is not claimed.) *)
Theorem total_distance_and_same_point (M : MathObject)
    (path : list LatLng) (p : LatLng) :
  ecma_special_values M ->
  valid_coordinates p = true ->
  (abs (Math_cos M (toRad (lat p))) <=? 1)%float = true ->
  totalDistanceKm M path =
    (if (length path <? 2)%nat then 0
     else fold_left PrimFloat.add (leg_distances M path) 0 / 1000)%float /\
  (forall p1 p2,
     _distanceBetween M p1 p2 =
       (6371000 *
        (2 * Math_atan2 M (sqrt (haversine_a M p1 p2))
                          (sqrt (1 - haversine_a M p1 p2))))%float) /\
  _distanceBetween M p p = 0%float.
Proof.
  intros Hecma Hvalid Hcos.
  destruct (valid_coordinates_finite p Hvalid) as [Hlat Hlng].
  split; [apply total_distance_sum|]. split; [reflexivity|].
  now apply distance_same_point.
Qed.

Lemma total_distance_and_same_point_witness :
  totalDistanceKm agreedMath farThenNear =
    (fold_left PrimFloat.add (leg_distances agreedMath farThenNear) 0 / 1000)%float /\
  _distanceBetween agreedMath {| lat := 0x1p-46; lng := 0 |}
    {| lat := 0x1p-46; lng := 0 |} = 0%float.
Proof.
  destruct (total_distance_and_same_point agreedMath farThenNear
              {| lat := 0x1p-46; lng := 0 |})
    as [Htotal [_ Hsame]].
  - split; reflexivity.
  - reflexivity.
  - reflexivity.
  - split; [exact Htotal|exact Hsame].
Defined.

(** ** Reversing a path *)

Section Reversal.

Variable M : MathObject.

Hypothesis Heven : sin_square_even M.

Local Open Scope float_scope.

Lemma half_toRad_opp (d : float) : toRad (- d) / 2 = - (toRad d / 2).
Proof. unfold toRad. now rewrite opp_mul, !opp_div. Qed.

Lemma sin_square_swap (x y : float) :
  Math_pow M (Math_sin M (toRad (x - y) / 2)) 2 =
  Math_pow M (Math_sin M (toRad (y - x) / 2)) 2.
Proof.
  destruct (sub_antisym y x) as [H|[H1 H2]].
  - rewrite H, half_toRad_opp. apply Heven.
  - now rewrite H1, H2.
Qed.

Lemma haversine_a_sym (p q : LatLng) : haversine_a M q p = haversine_a M p q.
Proof.
  unfold haversine_a.
  rewrite (sin_square_swap (lat p) (lat q)), (sin_square_swap (lng p) (lng q)).
  now rewrite (mul_comm (Math_cos M (toRad (lat q)))).
Qed.

Lemma distance_sym (p q : LatLng) :
  _distanceBetween M q p = _distanceBetween M p q.
Proof. unfold _distanceBetween. now rewrite haversine_a_sym. Qed.

Lemma leg_distances_snoc (path : list LatLng) (p q : LatLng) :
  leg_distances M (path ++ [p; q]) =
  leg_distances M (path ++ [p]) ++ [_distanceBetween M p q].
Proof.
  induction path as [|r path IH]; [reflexivity|].
  destruct path as [|r' path]; [reflexivity|].
  change (_distanceBetween M r r' :: leg_distances M ((r' :: path) ++ [p; q]) =
          (_distanceBetween M r r' :: leg_distances M ((r' :: path) ++ [p]))
            ++ [_distanceBetween M p q]).
  now rewrite IH.
Qed.

Lemma leg_distances_rev (path : list LatLng) :
  leg_distances M (rev path) = rev (leg_distances M path).
Proof.
  induction path as [|p path IH]; [reflexivity|].
  destruct path as [|q path]; [reflexivity|].
  change (leg_distances M (p :: q :: path))
    with (_distanceBetween M p q :: leg_distances M (q :: path)).
  change (rev (_distanceBetween M p q :: leg_distances M (q :: path)))
    with (rev (leg_distances M (q :: path)) ++ [_distanceBetween M p q]).
  rewrite <- IH.
  change (rev (p :: q :: path)) with ((rev path ++ [q]) ++ [p]).
  change (rev (q :: path)) with (rev path ++ [q]).
  rewrite <- app_assoc.
  change ([q] ++ [p]) with [q; p].
  now rewrite leg_distances_snoc, distance_sym.
Qed.

Lemma total_rev_short (path : list LatLng) :
  (length path <= 3)%nat ->
  totalDistanceKm M (rev path) = totalDistanceKm M path.
Proof.
  intro Hlen.
  destruct path as [|p [|q [|r [|t path]]]]; try reflexivity.
  - unfold totalDistanceKm. simpl. now rewrite distance_sym.
  - unfold totalDistanceKm. simpl.
    now rewrite (distance_sym r q), (distance_sym q p), add_from_zero_swap.
  - simpl in Hlen. lia.
Qed.

End Reversal.

(** The table [agreedMath] is odd in its sine. *)
Lemma agreedMath_sin_square_even : sin_square_even agreedMath.
Proof.
  intro x. simpl. unfold tiny. rewrite abs_opp.
  destruct (abs x <? 0x1p-27)%float; [apply square_opp|].
  destruct (abs x =? half_pi)%float; [|reflexivity].
  rewrite opp_div. apply square_opp.
Qed.

(** C9, as stated, fails.  On [farThenNear] the leg of 20015 km comes first
    and absorbs the two legs of 1.58 nanometres, one after the other; on the
    reversed path the two small legs are added first and together they lift
    the sum by one unit in the last place.  The totals are
    20015.086796020572 and 20015.086796020576. *)
Lemma reversed_total_differs :
  totalDistanceKm agreedMath farThenNear = 0x1.38bc58e10e572p+14%float /\
  totalDistanceKm agreedMath (rev farThenNear) = 0x1.38bc58e10e573p+14%float /\
  totalDistanceKm agreedMath (rev farThenNear) <>
  totalDistanceKm agreedMath farThenNear.
Proof.
  split; [vm_compute; reflexivity|].
  split; [vm_compute; reflexivity|].
  apply float_neq. vm_compute. reflexivity.
Qed.

(** C9, amended: the legs of the reversed path have the distances of the
    legs of the path, in reverse order, as soon as [Math.sin(x) ** 2] takes
    the same value at [x] and [-x] (the pairwise distance is then symmetric
    in its two arguments); the two totals are sums of the same distances
    taken in opposite orders, and they are equal for every path of at most
    three points. *)
Theorem reversed_path_same_legs (M : MathObject) (path : list LatLng) :
  sin_square_even M ->
  (forall p q, _distanceBetween M q p = _distanceBetween M p q) /\
  leg_distances M (rev path) = rev (leg_distances M path) /\
  ((length path <= 3)%nat ->
   totalDistanceKm M (rev path) = totalDistanceKm M path).
Proof.
  intro Heven. split; [|split].
  - intros p q. now apply distance_sym.
  - now apply leg_distances_rev.
  - now apply total_rev_short.
Qed.

Lemma reversed_path_same_legs_witness :
  leg_distances agreedMath (rev farThenNear) =
    rev (leg_distances agreedMath farThenNear) /\
  totalDistanceKm agreedMath (rev (firstn 3 farThenNear)) =
    totalDistanceKm agreedMath (firstn 3 farThenNear).
Proof.
  split.
  - apply (reversed_path_same_legs agreedMath farThenNear
             agreedMath_sin_square_even).
  - apply (reversed_path_same_legs agreedMath (firstn 3 farThenNear)
             agreedMath_sin_square_even).
    simpl. lia.
Defined.

(** * More of the handlers *)

(** ** Start point, last point and path go together *)

(** X1: after any run, either there is no start point, no last point and no
    path, or all three are there and the path begins with the start
    point. *)
Theorem start_last_path_agree (events : list Event) :
  let a := app (run World_new events) in
  match startLatLng a with
  | None => lastPointLatLng a = None /\ pathCoords a = []
  | Some s =>
      lastPointLatLng a <> None /\ exists rest, pathCoords a = s :: rest
  end.
Proof.
  apply (run_invariant
           (fun w => match startLatLng (app w) with
                     | None => lastPointLatLng (app w) = None /\
                               pathCoords (app w) = []
                     | Some s => lastPointLatLng (app w) <> None /\
                                 exists rest, pathCoords (app w) = s :: rest
                     end)).
  - simpl. auto.
  - intros w e IH. destruct e as [|latLng inputType|n ov st| | |xml]; simpl.
    + exact IH.
    + destruct (mapLoaded w); [|exact IH]. unfold _onMapClick.
      destruct (startLatLng (app w)) as [s|] eqn:Hs.
      * destruct (lastPointLatLng (app w)); simpl; rewrite Hs;
          (split; [discriminate|apply IH]).
      * simpl. split; [discriminate|now exists []].
    + destruct (nth_error (inflight w) n) as [req|]; [|exact IH]. simpl.
      assert (Hpush : forall segCoords,
        match startLatLng (push_segment segCoords (app w)) with
        | None => lastPointLatLng (push_segment segCoords (app w)) = None /\
                  pathCoords (push_segment segCoords (app w)) = []
        | Some s =>
            lastPointLatLng (push_segment segCoords (app w)) <> None /\
            exists rest, pathCoords (push_segment segCoords (app w)) = s :: rest
        end).
      { intro segCoords. unfold push_segment.
        destruct (startLatLng (app w)) as [s|] eqn:Hs.
        - rewrite (rebuild_with_start _ s) by exact Hs. simpl.
          rewrite last_element_cons. split; [discriminate|eauto].
        - unfold _rebuildPathFromSegments. simpl. rewrite Hs. simpl.
          rewrite Hs. split; [apply IH|reflexivity]. }
      unfold route_callback.
      destruct (negb (st =? "OK")%string); [apply Hpush|].
      destruct (length ov =? 0); [exact IH|apply Hpush].
    + unfold _undoLastSegment.
      destruct (startLatLng (app w)) as [s|] eqn:Hs; [|rewrite Hs; exact IH].
      destruct (length (segments (app w)) =? 0); [simpl; auto|].
      rewrite (rebuild_with_start _ s) by exact Hs. simpl.
      rewrite last_element_cons. split; [discriminate|eauto].
    + auto.
    + destruct (load_state (mapLoaded w) xml (app w))
        as [->|[pt [pts [_ [_ ->]]]]]; [exact IH|].
      cbv zeta. cbn [startLatLng lastPointLatLng pathCoords map].
      rewrite last_element_cons. split; [discriminate|eauto].
Qed.

(** ** Clicks *)

(** X2: once the map is there, a click on a course without start point makes
    the clicked point the start point, the last point and the whole path,
    asks the directions service nothing and keeps the segment list as it is;
    a click on a course with a start point asks for exactly one leg, from
    the last point to the clicked point, makes the clicked point the last
    point and leaves start point, segments and path alone.  The origin of
    the request is never [null]: a course with a start point has a last
    point. *)
Theorem click_starts_or_asks_one_leg (events : list Event)
    (latLng : LatLng) (inputType : string) :
  let w := run World_new events in
  mapLoaded w = true ->
  match startLatLng (app w) with
  | None =>
      step w (MapClick latLng inputType) =
        {| app := {| startLatLng := Some latLng;
                     lastPointLatLng := Some latLng;
                     segments := segments (app w);
                     pathCoords := [latLng] |};
           inflight := inflight w; mapLoaded := true |}
  | Some _ =>
      exists origin,
        lastPointLatLng (app w) = Some origin /\
        step w (MapClick latLng inputType) =
          {| app := set_lastPointLatLng (Some latLng) (app w);
             inflight :=
               inflight w ++
               [{| origin := origin; destination := latLng;
                   travelMode := if (inputType =? "cycling")%string
                                 then BICYCLING else WALKING |}];
             mapLoaded := true |}
  end.
Proof.
  intros w Hmap. pose proof (lastPoint_defined events) as Hlast.
  fold w in Hlast. cbv zeta in Hlast. simpl. rewrite Hmap.
  unfold _onMapClick.
  destruct (startLatLng (app w)) as [s|] eqn:Hs; [|reflexivity].
  destruct (lastPointLatLng (app w)) as [o|] eqn:Ho.
  - exists o. split; reflexivity.
  - exfalso. apply Hlast; [discriminate|reflexivity].
Qed.

Lemma click_starts_or_asks_one_leg_witness :
  inflight (run World_new
    [LoadMap; MapClick ptA "running"; MapClick ptB "running";
     MapClick ptC "cycling"]) =
  [ {| origin := ptA; destination := ptB; travelMode := WALKING |};
    {| origin := ptB; destination := ptC; travelMode := BICYCLING |} ].
Proof.
  destruct (click_starts_or_asks_one_leg
              [LoadMap; MapClick ptA "running"; MapClick ptB "running"]
              ptC "cycling" eq_refl) as [o [Ho Hstep]].
  change (run World_new
            [LoadMap; MapClick ptA "running"; MapClick ptB "running";
             MapClick ptC "cycling"])
    with (step (run World_new
                  [LoadMap; MapClick ptA "running"; MapClick ptB "running"])
               (MapClick ptC "cycling")).
  rewrite Hstep. injection Ho as <-. reflexivity.
Defined.

(** ** Answers *)

Lemma last_element_cons_cons (q r : LatLng) (t : list LatLng) :
  last_element (q :: r :: t) = last_element (r :: t).
Proof.
  rewrite !last_element_cons. f_equal.
  destruct t as [|u t]; [reflexivity|].
  change (last (u :: t) q = last (u :: t) r). apply last_cons_default.
Qed.

Lemma last_element_app_cons (l : list LatLng) (p : LatLng) (l' : list LatLng) :
  last_element (l ++ p :: l') = last_element (p :: l').
Proof.
  induction l as [|q l IH]; [reflexivity|].
  rewrite <- IH. change ((q :: l) ++ p :: l') with (q :: (l ++ p :: l')).
  destruct (l ++ p :: l') as [|r t] eqn:E; [now destruct l|].
  apply last_element_cons_cons.
Qed.

(** X3: with a start point set, an answer that appends a segment moves the
    last point to the end of the recomposed path, whatever was clicked since
    the leg was asked for.  When the appended segment has two points or more
    that end is the last point of the segment: after the straight-line
    fallback the last point is the destination of the request. *)
Theorem answer_moves_last_point (req : Request) (overview_path : list LatLng)
    (status : string) (a : App) (seg : Segment) :
  startLatLng a <> None ->
  pushed_segments req overview_path status = [seg] ->
  let a' := route_callback req overview_path status a in
  lastPointLatLng a' = last_element (pathCoords a') /\
  (2 <= length (coords seg) ->
   lastPointLatLng a' = last_element (coords seg)) /\
  ((status =? "OK")%string = false ->
   lastPointLatLng a' = Some (destination req)).
Proof.
  intros Hstart Hpushed a'.
  destruct (startLatLng a) as [s|] eqn:Hs; [|congruence].
  assert (Ha' : a' = push_segment (coords seg) a).
  { subst a'. unfold route_callback, pushed_segments in *.
    destruct (negb (status =? "OK")%string).
    - injection Hpushed as <-. reflexivity.
    - destruct (length overview_path =? 0); [discriminate|].
      injection Hpushed as <-. reflexivity. }
  assert (Hlast : lastPointLatLng a' = last_element (pathCoords a')).
  { rewrite Ha'. unfold push_segment.
    now rewrite (rebuild_with_start _ s) by exact Hs. }
  assert (Hseg : 2 <= length (coords seg) ->
                 lastPointLatLng a' = last_element (coords seg)).
  { intro Hlen. rewrite Hlast, Ha'. unfold push_segment.
    rewrite rebuild_pathCoords. simpl startLatLng. rewrite Hs.
    cbn [segments set_segments].
    rewrite composePath_app by discriminate.
    destruct (coords seg) as [|c [|c' cs]]; simpl in Hlen; try lia.
    cbn [tl]. unfold composePath.
    rewrite (last_element_app_cons (s :: _) c' cs).
    symmetry. apply last_element_cons_cons. }
  split; [exact Hlast|]. split; [exact Hseg|].
  intro Hko. unfold pushed_segments in Hpushed. rewrite Hko in Hpushed.
  simpl in Hpushed. injection Hpushed as <-.
  rewrite Hseg; [reflexivity|simpl; lia].
Qed.

Lemma answer_moves_last_point_witness :
  lastPointLatLng
    (route_callback legAB [] "ZERO_RESULTS"
       (set_lastPointLatLng (Some ptC) startOnly)) = Some ptB.
Proof.
  apply (answer_moves_last_point legAB [] "ZERO_RESULTS"
           (set_lastPointLatLng (Some ptC) startOnly)
           (mkSegment [ptA; ptB])).
  - discriminate.
  - reflexivity.
  - reflexivity.
Defined.

(** X4: answers are stored in the order in which they arrive, not in the
    order of the clicks.  With two legs pending, answering the second one
    first puts its segment in front of the segment of the first. *)
Theorem segments_in_completion_order (w : World) (r1 r2 : Request)
    (pending : list Request) (ov1 ov2 : list LatLng) (st1 st2 : string) :
  inflight w = r1 :: r2 :: pending ->
  let inOrder := run w [RouteDone 0 ov1 st1; RouteDone 0 ov2 st2] in
  let swapped := run w [RouteDone 1 ov2 st2; RouteDone 0 ov1 st1] in
  segments (app inOrder) =
    segments (app w) ++ pushed_segments r1 ov1 st1 ++ pushed_segments r2 ov2 st2 /\
  segments (app swapped) =
    segments (app w) ++ pushed_segments r2 ov2 st2 ++ pushed_segments r1 ov1 st1 /\
  inflight inOrder = pending /\ inflight swapped = pending.
Proof.
  intros Hpending. simpl. rewrite Hpending. simpl.
  rewrite !route_callback_segments, <- !app_assoc. auto.
Qed.

Lemma segments_in_completion_order_witness :
  let w := run World_new
             [LoadMap; MapClick ptA "running"; MapClick ptB "running";
              MapClick ptC "running"] in
  segments (app (run w [RouteDone 0 [] "NOT_FOUND"; RouteDone 0 [] "NOT_FOUND"]))
    = [mkSegment [ptA; ptB]; mkSegment [ptB; ptC]] /\
  segments (app (run w [RouteDone 1 [] "NOT_FOUND"; RouteDone 0 [] "NOT_FOUND"]))
    = [mkSegment [ptB; ptC]; mkSegment [ptA; ptB]].
Proof.
  intro w.
  destruct (segments_in_completion_order w legAB legBC []
              [] [] "NOT_FOUND" "NOT_FOUND" eq_refl) as [H1 [H2 _]].
  split; [exact H1|exact H2].
Defined.

(** ** Undo after a leg, undo after a load *)

Lemma remove_nth_last (l : list Request) (r : Request) :
  nth_error (l ++ [r]) (length l) = Some r /\
  remove_nth (length l) (l ++ [r]) = l.
Proof.
  induction l as [|x l [IH1 IH2]]; [now split|].
  split; [exact IH1|]. simpl. now rewrite IH2.
Qed.

(** X5: on a settled course (a start point, the path composed of the
    segments, the last point at the end of the path) a click, the answer to
    its request and one undo lead back to the course as it was, provided the
    answer appended a segment; the requests that were pending before are
    still pending. *)
Theorem undo_cancels_click_and_answer (w : World) (s : LatLng)
    (latLng : LatLng) (inputType : string)
    (overview_path : list LatLng) (status : string) :
  mapLoaded w = true ->
  startLatLng (app w) = Some s ->
  pathCoords (app w) = composePath (Some s) (segments (app w)) ->
  lastPointLatLng (app w) = last_element (pathCoords (app w)) ->
  ((status =? "OK")%string = true -> overview_path <> []) ->
  let w1 := step w (MapClick latLng inputType) in
  let w2 := step w1 (RouteDone (length (inflight w)) overview_path status) in
  step w2 UndoClick = w.
Proof.
  intros Hmap Hs Hpath Hlast Hov.
  destruct w as [a pending loaded]. simpl in *. subst loaded.
  unfold _onMapClick. rewrite Hs.
  rewrite Hpath in Hlast. simpl composePath in Hlast.
  rewrite last_element_cons in Hlast. rewrite Hlast.
  cbn [app inflight mapLoaded].
  destruct (remove_nth_last pending
              (_addRouteSegment inputType
                 (last (flat_map (fun seg => tl (coords seg)) (segments a)) s)
                 latLng)) as [Hnth Hrem].
  rewrite Hnth. cbn [app inflight mapLoaded]. rewrite Hrem.
  f_equal.
  set (a1 := set_lastPointLatLng (Some latLng) a).
  assert (Hpushed : exists seg,
            route_callback
              (_addRouteSegment inputType
                 (last (flat_map (fun seg => tl (coords seg)) (segments a)) s)
                 latLng) overview_path status a1 =
            push_segment seg a1).
  { unfold route_callback. destruct (status =? "OK")%string; simpl.
    - destruct overview_path as [|p ov]; [now destruct Hov|].
      simpl. eauto.
    - eauto. }
  destruct Hpushed as [seg ->].
  unfold _undoLastSegment, push_segment.
  rewrite rebuild_startLatLng, rebuild_segments. simpl startLatLng.
  rewrite Hs. cbn [segments set_segments a1 set_lastPointLatLng].
  rewrite length_app. simpl length. rewrite Nat.add_1_r. simpl Nat.eqb.
  cbv iota. rewrite removelast_last.
  rewrite (rebuild_with_start _ s) by (simpl; rewrite rebuild_startLatLng; exact Hs).
  cbn [segments set_segments]. simpl composePath.
  rewrite last_element_cons.
  destruct a as [st la sg pc]. simpl in *. subst st pc la. reflexivity.
Qed.

Lemma undo_cancels_click_and_answer_witness :
  step (step (step (mkWorld oneLeg [] true) (MapClick ptC "running"))
          (RouteDone 0 [ptB; ptD; ptC] "OK")) UndoClick =
  mkWorld oneLeg [] true.
Proof.
  apply (undo_cancels_click_and_answer (mkWorld oneLeg [] true) ptA
           ptC "running" [ptB; ptD; ptC] "OK");
    try reflexivity.
  intros _. discriminate.
Defined.

(** X6: a load that finds two track points or more forgets the course that
    was there, whatever it was, and makes the loaded points one segment: one
    undo takes the whole track away and leaves its first point as the start
    point, a second undo empties the course. *)
Theorem undo_after_load (mapLoaded : bool) (pts : list Trkpt) (a b : App) :
  2 <= length pts ->
  let loaded := fst (_loadGpxFromText mapLoaded (Parsed pts) a) in
  loaded = fst (_loadGpxFromText mapLoaded (Parsed pts) b) /\
  pathCoords loaded = map trkpt_coords pts /\
  exists pt rest,
    pts = pt :: rest /\
    _undoLastSegment loaded =
      {| startLatLng := Some (trkpt_coords pt);
         lastPointLatLng := Some (trkpt_coords pt);
         segments := [];
         pathCoords := [trkpt_coords pt] |} /\
    _undoLastSegment (_undoLastSegment loaded) = App_new.
Proof.
  intros Hlen loaded. subst loaded. unfold _loadGpxFromText.
  destruct (Nat.ltb_spec (length pts) 2); [lia|].
  destruct pts as [|pt rest]; [simpl in Hlen; lia|].
  split; [now destruct mapLoaded|].
  split; [now destruct mapLoaded|].
  exists pt, rest. split; [reflexivity|].
  now destruct mapLoaded.
Qed.

Lemma undo_after_load_witness :
  _undoLastSegment
    (fst (_loadGpxFromText true
            (Parsed [mkTrkpt 35 126; mkTrkpt 35 126.5; mkTrkpt 35.25 126.5])
            oneLeg)) = startOnly.
Proof.
  destruct (undo_after_load true
              [mkTrkpt 35 126; mkTrkpt 35 126.5; mkTrkpt 35.25 126.5]
              oneLeg oneLeg) as [_ [_ [pt [rest [Hpts [Hundo _]]]]]].
  - simpl. lia.
  - rewrite Hundo. injection Hpts as <- _. reflexivity.
Defined.

(** ** Recomposition again *)

(** X7: recomposing twice is recomposing once, and with a start point the
    result does not depend on the path and the last point stored before:
    only the start point and the segments are read.  Without a start point
    the path is emptied and the last point is left as it is. *)
Theorem recomposition_reads_start_and_segments (a : App)
    (l : option LatLng) (p : list LatLng) :
  _rebuildPathFromSegments (_rebuildPathFromSegments a) =
    _rebuildPathFromSegments a /\
  match startLatLng a with
  | Some _ =>
      _rebuildPathFromSegments (set_pathCoords p (set_lastPointLatLng l a)) =
        _rebuildPathFromSegments a
  | None =>
      _rebuildPathFromSegments a = set_pathCoords [] a
  end.
Proof.
  destruct (startLatLng a) as [s|] eqn:Hs.
  - split.
    + rewrite (rebuild_with_start (_rebuildPathFromSegments a) s)
        by (rewrite rebuild_startLatLng; exact Hs).
      rewrite rebuild_segments. now rewrite (rebuild_with_start a s).
    + now rewrite !(rebuild_with_start _ s).
  - unfold _rebuildPathFromSegments. simpl. rewrite Hs. simpl. rewrite Hs.
    split; reflexivity.
Qed.

(** ** The distance as the course grows *)

Lemma sum_legs_cut (M : MathObject) (l1 : list LatLng) (p : LatLng)
    (l2 : list LatLng) (sum : float) :
  sum_legs M sum (l1 ++ p :: l2) =
  sum_legs M (sum_legs M sum (l1 ++ [p])) (p :: l2).
Proof.
  revert sum. induction l1 as [|r l1 IH]; intro sum; [reflexivity|].
  destruct l1 as [|r' l1].
  - reflexivity.
  - change (sum_legs M (sum + _distanceBetween M r r') ((r' :: l1) ++ p :: l2) =
            sum_legs M
              (sum_legs M (sum + _distanceBetween M r r') ((r' :: l1) ++ [p]))
              (p :: l2)).
    apply IH.
Qed.

(** X8: when an answer appends a segment to a course whose path is the
    composition of its segments, the sum of the leg distances goes on from
    the sum of the path so far: the loop adds the distances along the old end
    of the path followed by the points of the new segment but the first.
    The first point of the segment is not measured. *)
Theorem answer_extends_distance (M : MathObject) (req : Request)
    (overview_path : list LatLng) (status : string) (a : App)
    (s c : LatLng) (cs : list LatLng) :
  startLatLng a = Some s ->
  pathCoords a = composePath (Some s) (segments a) ->
  pushed_segments req overview_path status = [mkSegment (c :: cs)] ->
  exists q,
    last_element (pathCoords a) = Some q /\
    pathCoords (route_callback req overview_path status a) =
      pathCoords a ++ cs /\
    sum_legs M 0 (pathCoords (route_callback req overview_path status a)) =
      sum_legs M (sum_legs M 0 (pathCoords a)) (q :: cs).
Proof.
  intros Hs Hpath Hpushed.
  assert (Hcb : route_callback req overview_path status a =
                push_segment (c :: cs) a).
  { unfold route_callback. unfold pushed_segments in Hpushed.
    destruct (negb (status =? "OK")%string); [now inversion Hpushed|].
    destruct overview_path as [|p ov]; [discriminate|].
    simpl in *. now inversion Hpushed. }
  rewrite Hcb. unfold push_segment.
  rewrite (rebuild_with_start _ s) by exact Hs.
  cbn [pathCoords segments set_segments].
  assert (Hnew : composePath (Some s) (segments a ++ [mkSegment (c :: cs)]) =
                 pathCoords a ++ cs).
  { rewrite Hpath. simpl. rewrite flat_map_app. simpl.
    now rewrite app_nil_r. }
  rewrite Hnew.
  destruct (exists_last (l := pathCoords a)) as [front [q Hq]].
  { rewrite Hpath. discriminate. }
  exists q. split; [|split; [reflexivity|]].
  - rewrite Hq. destruct front as [|f front]; [reflexivity|].
    apply (last_element_app_cons (f :: front) q []).
  - rewrite Hq, <- app_assoc. apply sum_legs_cut.
Qed.

Lemma answer_extends_distance_witness :
  exists q,
    last_element (pathCoords oneLeg) = Some q /\
    pathCoords (route_callback legBC [ptA; ptD; ptC] "OK" oneLeg) =
      pathCoords oneLeg ++ [ptD; ptC] /\
    sum_legs agreedMath 0
      (pathCoords (route_callback legBC [ptA; ptD; ptC] "OK" oneLeg)) =
    sum_legs agreedMath (sum_legs agreedMath 0 (pathCoords oneLeg))
      (q :: [ptD; ptC]).
Proof.
  apply (answer_extends_distance agreedMath legBC [ptA; ptD; ptC] "OK"
           oneLeg ptA ptA [ptD; ptC]); reflexivity.
Defined.

(** * The page *)

(** Reading a field of a page after assignments to fields. *)
Ltac page_fields :=
  cbn [Display.world Display.polylines Display.polyline Display.markers
       Display.startMarker Display.inputType_value
       Display.inputCourseKm_value Display.info
       Display.set_world Display.set_app Display.set_polylines
       Display.set_polyline Display.set_markers Display.set_startMarker
       Display.set_inputType_value Display.set_inputCourseKm_value
       Display.set_info Display._updateInfo Display.new_startMarker
       app inflight mapLoaded] in *.

(** A handler that leaves the panel, the path and the target alone. *)
Ltac kept_by Hkept :=
  match goal with
  | |- match Display.info ?x with _ => _ end =>
      apply (Hkept x); try reflexivity
  end.

Section PageFacts.

Variable P : Platform.

Lemma page_run_invariant (Q : Display.Page -> Prop) (pg : Display.Page) :
  Q pg ->
  (forall pg e, Q pg -> Q (Display.step P pg e)) ->
  forall events, Q (Display.run P pg events).
Proof.
  intros H0 Hstep events. unfold Display.run.
  revert pg H0. induction events as [|e events IH]; intros pg Hpg.
  - exact Hpg.
  - simpl. apply IH, Hstep, Hpg.
Qed.

(** ** What each handler does to the course *)

Lemma redraw_world (pg : Display.Page) :
  Display.world (Display._redrawPolyline pg) = Display.world pg.
Proof.
  unfold Display._redrawPolyline.
  destruct (Display.polyline pg); simpl;
    destruct (length (pathCoords (app (Display.world pg))) <? 2); reflexivity.
Qed.

Lemma redraw_markers (pg : Display.Page) :
  Display.markers (Display._redrawPolyline pg) = Display.markers pg /\
  Display.startMarker (Display._redrawPolyline pg) = Display.startMarker pg.
Proof.
  unfold Display._redrawPolyline.
  destruct (Display.polyline pg); simpl;
    destruct (length (pathCoords (app (Display.world pg))) <? 2);
    split; reflexivity.
Qed.

Lemma redraw_inputs (pg : Display.Page) :
  Display.inputType_value (Display._redrawPolyline pg) =
    Display.inputType_value pg /\
  Display.inputCourseKm_value (Display._redrawPolyline pg) =
    Display.inputCourseKm_value pg /\
  Display.info (Display._redrawPolyline pg) = Display.info pg.
Proof.
  unfold Display._redrawPolyline.
  destruct (Display.polyline pg); simpl;
    destruct (length (pathCoords (app (Display.world pg))) <? 2);
    repeat split; reflexivity.
Qed.

Lemma world_eta (w : World) :
  {| app := app w; inflight := inflight w; mapLoaded := mapLoaded w |} = w.
Proof. now destruct w. Qed.

Lemma page_reset_world (pg : Display.Page) :
  Display.world (Display._resetCourse P pg) =
  {| app := _resetCourse (app (Display.world pg));
     inflight := inflight (Display.world pg);
     mapLoaded := mapLoaded (Display.world pg) |}.
Proof.
  unfold Display._resetCourse. cbv zeta. page_fields.
  destruct (Display.polyline pg); page_fields;
    destruct (Display.startMarker pg); reflexivity.
Qed.

Lemma page_click_world (latLng : LatLng) (pg : Display.Page) :
  Display.world (Display._onMapClick P latLng pg) =
  let (a', req) :=
    _onMapClick latLng (Display.inputType_value pg) (app (Display.world pg)) in
  {| app := a';
     inflight := match req with
                 | Some r => inflight (Display.world pg) ++ [r]
                 | None => inflight (Display.world pg)
                 end;
     mapLoaded := mapLoaded (Display.world pg) |}.
Proof.
  unfold Display._onMapClick, _onMapClick.
  destruct (startLatLng (app (Display.world pg))).
  - destruct (lastPointLatLng (app (Display.world pg))); reflexivity.
  - cbv zeta. page_fields. rewrite redraw_world. page_fields.
    destruct (Display.startMarker pg); reflexivity.
Qed.

Lemma page_callback_world (req : Request) (overview_path : list LatLng)
    (status : string) (pg : Display.Page) :
  Display.world (Display.route_callback P req overview_path status pg) =
  {| app := route_callback req overview_path status (app (Display.world pg));
     inflight := inflight (Display.world pg);
     mapLoaded := mapLoaded (Display.world pg) |}.
Proof.
  unfold Display.route_callback, route_callback.
  destruct (negb (status =? "OK")%string).
  - cbn [Display.world Display._updateInfo Display.set_info].
    now rewrite redraw_world.
  - cbv zeta. destruct (length overview_path =? 0).
    + now rewrite world_eta.
    + cbn [Display.world Display._updateInfo Display.set_info].
      now rewrite redraw_world.
Qed.

Lemma page_undo_world (pg : Display.Page) :
  Display.world (Display._undoLastSegment P pg) =
  {| app := _undoLastSegment (app (Display.world pg));
     inflight := inflight (Display.world pg);
     mapLoaded := mapLoaded (Display.world pg) |}.
Proof.
  unfold Display._undoLastSegment, _undoLastSegment.
  destruct (startLatLng (app (Display.world pg))).
  - cbv zeta. destruct (length (segments (app (Display.world pg))) =? 0).
    + apply page_reset_world.
    + cbn [Display.world Display._updateInfo Display.set_info].
      now rewrite redraw_world.
  - now rewrite world_eta.
Qed.

Lemma fst_if (A B : Type) (b : bool) (x : A) (y z : B) :
  fst (if b then (x, y) else (x, z)) = x.
Proof. now destruct b. Qed.

Lemma page_load_world (xml : XmlParse) (pg : Display.Page) :
  Display.world (fst (Display._loadGpxFromText P xml pg)) =
  {| app := fst (_loadGpxFromText (mapLoaded (Display.world pg)) xml
                   (app (Display.world pg)));
     inflight := inflight (Display.world pg);
     mapLoaded := mapLoaded (Display.world pg) |}.
Proof.
  unfold Display._loadGpxFromText, _loadGpxFromText.
  destruct xml as [|pts]; [cbn [fst]; now rewrite world_eta|].
  destruct (length pts <? 2); [cbn [fst]; now rewrite world_eta|].
  cbv zeta.
  rewrite !fst_if. page_fields. rewrite redraw_world. page_fields.
  rewrite page_reset_world. reflexivity.
Qed.

Lemma page_step_world (pg : Display.Page) (e : Display.PageEvent) :
  Display.world (Display.step P pg e) =
  run (Display.world pg) (Display.course_event pg e).
Proof.
  destruct e as [|latLng|n ov st| | |xml|v|v]; simpl.
  - reflexivity.
  - destruct (mapLoaded (Display.world pg)) eqn:Hm; [|reflexivity].
    rewrite page_click_world, Hm. reflexivity.
  - destruct (nth_error (inflight (Display.world pg)) n); [|reflexivity].
    now rewrite page_callback_world.
  - apply page_undo_world.
  - apply page_reset_world.
  - apply page_load_world.
  - reflexivity.
  - reflexivity.
Qed.

(** X9: the overlays, the panel and the two inputs never act on the
    course.  After any run of the page the course, the pending requests and
    the map are those of the run of the course handlers alone, on the
    events of the page that are not a choice of type or a target typed in,
    a click carrying the type selected when it is heard. *)
Theorem page_course_is_course_run (pg : Display.Page)
    (events : list Display.PageEvent) :
  Display.world (Display.run P pg events) =
  run (Display.world pg) (Display.course_events P pg events).
Proof.
  revert pg. induction events as [|e events IH]; intro pg; [reflexivity|].
  change (Display.run P pg (e :: events))
    with (Display.run P (Display.step P pg e) events).
  rewrite IH. simpl Display.course_events. rewrite run_app.
  now rewrite page_step_world.
Qed.

(** ** The poly-lines *)

Lemma update_nth_last (A : Type) (f : A -> A) (ls : list A) (l : A) :
  Display.update_nth (length ls) f (ls ++ [l]) = ls ++ [f l].
Proof. induction ls as [|x ls IH]; simpl; [reflexivity|now rewrite IH]. Qed.

Lemma filter_all_false (A : Type) (f : A -> bool) (l : list A) :
  Forall (fun x => f x = false) l -> filter f l = [].
Proof.
  induction 1 as [|x l Hx _ IH]; simpl; [reflexivity|now rewrite Hx].
Qed.

Lemma nth_error_last (A : Type) (ls : list A) (l : A) :
  nth_error (ls ++ [l]) (length ls) = Some l.
Proof. induction ls as [|x ls IH]; simpl; [reflexivity|exact IH]. Qed.

Lemma lines_inv_tidy (pg : Display.Page) :
  Display.lines_inv pg -> Display.lines_tidy pg.
Proof.
  unfold Display.lines_inv, Display.lines_tidy.
  destruct (Display.polyline pg); [|trivial].
  intros (ls & l & H1 & H2 & H3 & _). eauto.
Qed.

Lemma lines_hidden (ls : list Display.Polyline) (l : Display.Polyline) :
  Forall (fun l => Display.line_onMap l = false) ls ->
  Forall (fun l => Display.line_onMap l = false)
    (ls ++ [Display.line_setMap_null l]).
Proof.
  intro H. apply Forall_app. split; [exact H|].
  constructor; [reflexivity|constructor].
Qed.

Lemma redraw_lines (pg : Display.Page) :
  Display.lines_tidy pg ->
  Display.lines_inv (Display._redrawPolyline pg) /\
  (mapLoaded (Display.world pg) = true ->
   2 <= length (pathCoords (app (Display.world pg))) ->
   exists ls l,
     Display.polylines (Display._redrawPolyline pg) = ls ++ [l] /\
     Display.polyline (Display._redrawPolyline pg) = Some (length ls) /\
     Display.line_onMap l = true).
Proof.
  unfold Display.lines_tidy, Display._redrawPolyline, Display.lines_inv.
  destruct (Display.polyline pg) as [i|] eqn:Hp.
  - intros (ls & l & Hls & Hi & Hoff). subst i. rewrite Hls.
    rewrite update_nth_last. page_fields.
    destruct (Nat.ltb_spec (length (pathCoords (app (Display.world pg)))) 2)
      as [Hlt|Hge]; page_fields.
    + rewrite Hp. split; [|lia].
      exists ls, (Display.line_setMap_null l).
      repeat split; try assumption; discriminate.
    + split.
      * eexists _, _. split; [reflexivity|]. split; [reflexivity|].
        split; [now apply lines_hidden|]. intros _. now split.
      * intros Hm _. eexists _, _. split; [reflexivity|].
        split; [reflexivity|exact Hm].
  - intro Hoff.
    destruct (Nat.ltb_spec (length (pathCoords (app (Display.world pg)))) 2)
      as [Hlt|Hge]; page_fields.
    + rewrite Hp. split; [exact Hoff|lia].
    + split.
      * eexists _, _. split; [reflexivity|]. split; [reflexivity|].
        split; [exact Hoff|]. intros _. now split.
      * intros Hm _. eexists _, _. split; [reflexivity|].
        split; [reflexivity|exact Hm].
Qed.

Lemma reset_lines (pg : Display.Page) :
  Display.lines_inv pg ->
  Display.polyline (Display._resetCourse P pg) = None /\
  Forall (fun l => Display.line_onMap l = false)
    (Display.polylines (Display._resetCourse P pg)).
Proof.
  unfold Display.lines_inv, Display._resetCourse. cbv zeta. page_fields.
  destruct (Display.polyline pg) as [i|] eqn:Hp; page_fields.
  - intros (ls & l & Hls & Hi & Hoff & _). subst i. rewrite Hls.
    rewrite update_nth_last.
    destruct (Display.startMarker pg); page_fields;
      (split; [reflexivity|now apply lines_hidden]).
  - intro Hoff.
    destruct (Display.startMarker pg); page_fields; now split.
Qed.

Lemma reset_lines_inv (pg : Display.Page) :
  Display.lines_inv pg -> Display.lines_inv (Display._resetCourse P pg).
Proof.
  intro H. destruct (reset_lines pg H) as [Hp Hoff].
  unfold Display.lines_inv. now rewrite Hp.
Qed.

Lemma step_lines_inv (pg : Display.Page) (e : Display.PageEvent) :
  Display.lines_inv pg -> Display.lines_inv (Display.step P pg e).
Proof.
  intro H. pose proof (lines_inv_tidy pg H) as Ht.
  destruct e as [|latLng|n ov st| | |xml|v|v]; simpl.
  - exact H.
  - destruct (mapLoaded (Display.world pg)); [|exact H].
    unfold Display._onMapClick. cbv zeta.
    destruct (startLatLng (app (Display.world pg))).
    + destruct (lastPointLatLng (app (Display.world pg))); exact H.
    + apply (redraw_lines _).
      page_fields. destruct (Display.startMarker pg); exact Ht.
  - destruct (nth_error (inflight (Display.world pg)) n) as [req|]; [|exact H].
    unfold Display.route_callback. cbv zeta.
    destruct (negb (st =? "OK")%string).
    + apply (redraw_lines _). exact Ht.
    + destruct (length ov =? 0); [exact H|].
      apply (redraw_lines _). exact Ht.
  - unfold Display._undoLastSegment. cbv zeta.
    destruct (startLatLng (app (Display.world pg))); [|exact H].
    destruct (length (segments (app (Display.world pg))) =? 0).
    + now apply reset_lines_inv.
    + apply (redraw_lines _). exact Ht.
  - now apply reset_lines_inv.
  - unfold Display._loadGpxFromText.
    destruct xml as [|pts]; [exact H|].
    destruct (length pts <? 2); [exact H|]. cbv zeta.
    rewrite fst_if.
    apply (redraw_lines _).
    destruct (reset_lines pg H) as [Hp Hoff].
    unfold Display.lines_tidy. page_fields. now rewrite Hp.
  - exact H.
  - exact H.
Qed.

(** X10: after any run of the page at most one poly-line is on the map,
    whatever was drawn before: if one is on the map it is the current one,
    it draws exactly the path of the course, and the path has two points at
    least. *)
Theorem at_most_one_line_on_map (inputType_value inputCourseKm_value : string)
    (events : list Display.PageEvent) :
  let pg :=
    Display.run P (Display.Page_new inputType_value inputCourseKm_value)
      events in
  Display.shown_lines pg = [] \/
  exists l,
    Display.shown_lines pg = [l] /\
    Display.current_line pg = Some l /\
    Display.path l = pathCoords (app (Display.world pg)) /\
    2 <= length (Display.path l).
Proof.
  cbv zeta.
  assert (H : Display.lines_inv
                (Display.run P
                   (Display.Page_new inputType_value inputCourseKm_value)
                   events)).
  { apply page_run_invariant.
    - constructor.
    - intros pg e. apply step_lines_inv. }
  revert H. generalize (Display.run P
                   (Display.Page_new inputType_value inputCourseKm_value)
                   events) as pg.
  intros pg H. unfold Display.lines_inv in H.
  unfold Display.shown_lines, Display.current_line.
  destruct (Display.polyline pg) as [i|].
  - destruct H as (ls & l & Hls & Hi & Hoff & Hon). subst i. rewrite Hls.
    rewrite filter_app, (filter_all_false _ _ _ Hoff), nth_error_last. simpl.
    destruct (Display.line_onMap l) eqn:Hl; [right|now left].
    exists l. destruct (Hon eq_refl) as [Hpath Hlen]. now repeat split.
  - left. now apply filter_all_false.
Qed.

(** ** The start marker *)

Lemma markers_hidden (ms : list Display.Marker) (m : Display.Marker) :
  Forall (fun m => Display.marker_onMap m = false) ms ->
  Forall (fun m => Display.marker_onMap m = false)
    (ms ++ [Display.marker_setMap_null m]).
Proof.
  intro H. apply Forall_app. split; [exact H|].
  constructor; [reflexivity|constructor].
Qed.

Lemma markers_inv_ext (pg pg' : Display.Page) :
  Display.startMarker pg' = Display.startMarker pg ->
  Display.markers pg' = Display.markers pg ->
  startLatLng (app (Display.world pg')) = startLatLng (app (Display.world pg)) ->
  Display.markers_inv pg -> Display.markers_inv pg'.
Proof.
  unfold Display.markers_inv. intros -> -> ->. trivial.
Qed.

Lemma redraw_markers_inv (pg : Display.Page) :
  Display.markers_inv pg ->
  Display.markers_inv (Display._updateInfo P (Display._redrawPolyline pg)).
Proof.
  apply markers_inv_ext; page_fields.
  - apply redraw_markers.
  - apply redraw_markers.
  - now rewrite redraw_world.
Qed.

Lemma new_marker_inv (pg : Display.Page) :
  Forall (fun m => Display.marker_onMap m = false) (Display.markers pg) ->
  startLatLng (app (Display.world pg)) <> None ->
  Display.markers_inv (Display.new_startMarker pg).
Proof.
  intros Hoff Hs. unfold Display.markers_inv. page_fields.
  eexists _, _. split; [reflexivity|]. split; [reflexivity|].
  split; [exact Hoff|]. split; [reflexivity|exact Hs].
Qed.

Lemma reset_markers (pg : Display.Page) :
  Display.markers_inv pg ->
  Display.startMarker (Display._resetCourse P pg) = None /\
  Forall (fun m => Display.marker_onMap m = false)
    (Display.markers (Display._resetCourse P pg)).
Proof.
  unfold Display.markers_inv, Display._resetCourse. cbv zeta. page_fields.
  destruct (Display.polyline pg); page_fields;
    (destruct (Display.startMarker pg) as [i|] eqn:Hm; page_fields;
     [ intros (ms & m & Hms & Hi & Hoff & _); subst i; rewrite Hms;
       rewrite update_nth_last; split; [reflexivity|now apply markers_hidden]
     | intros [_ Hoff]; now split ]).
Qed.

Lemma reset_markers_inv (pg : Display.Page) :
  Display.markers_inv pg -> Display.markers_inv (Display._resetCourse P pg).
Proof.
  intro H. destruct (reset_markers pg H) as [Hm Hoff].
  unfold Display.markers_inv. rewrite Hm. split; [|exact Hoff].
  now rewrite page_reset_world.
Qed.

Lemma loaded_start (pts : list Trkpt) :
  (length pts <? 2) = false ->
  nth_error (map trkpt_coords pts) 0 <> None.
Proof. destruct pts; [discriminate|]. discriminate. Qed.

Lemma step_markers_inv (pg : Display.Page) (e : Display.PageEvent) :
  Display.markers_inv pg -> Display.markers_inv (Display.step P pg e).
Proof.
  intro H.
  destruct e as [|latLng|n ov st| | |xml|v|v]; simpl.
  - exact H.
  - destruct (mapLoaded (Display.world pg)); [|exact H].
    unfold Display._onMapClick. cbv zeta.
    destruct (startLatLng (app (Display.world pg))) eqn:Hs.
    + destruct (lastPointLatLng (app (Display.world pg)));
        (revert H; apply markers_inv_ext; page_fields;
         [reflexivity|reflexivity|simpl; now rewrite Hs]).
    + apply redraw_markers_inv. unfold Display.markers_inv in H.
      page_fields. destruct (Display.startMarker pg) as [i|] eqn:Hm.
      * destruct H as (ms & m & _ & _ & _ & _ & Hne). now rewrite Hs in Hne.
      * apply new_marker_inv; page_fields; [apply H|discriminate].
  - destruct (nth_error (inflight (Display.world pg)) n) as [req|]; [|exact H].
    unfold Display.route_callback. cbv zeta.
    destruct (negb (st =? "OK")%string).
    + apply redraw_markers_inv. revert H. apply markers_inv_ext; page_fields;
        try reflexivity. unfold push_segment. now rewrite rebuild_startLatLng.
    + destruct (length ov =? 0); [exact H|].
      apply redraw_markers_inv. revert H. apply markers_inv_ext; page_fields;
        try reflexivity. unfold push_segment. now rewrite rebuild_startLatLng.
  - unfold Display._undoLastSegment. cbv zeta.
    destruct (startLatLng (app (Display.world pg))); [|exact H].
    destruct (length (segments (app (Display.world pg))) =? 0).
    + now apply reset_markers_inv.
    + apply redraw_markers_inv. revert H. apply markers_inv_ext; page_fields;
        try reflexivity. now rewrite rebuild_startLatLng.
  - now apply reset_markers_inv.
  - unfold Display._loadGpxFromText.
    destruct xml as [|pts]; [exact H|].
    destruct (length pts <? 2) eqn:Hlen; [exact H|]. cbv zeta.
    rewrite fst_if. apply redraw_markers_inv.
    destruct (reset_markers pg H) as [Hm Hoff].
    apply new_marker_inv; page_fields; [exact Hoff|].
    now apply loaded_start.
  - exact H.
  - exact H.
Qed.

(** X11: after any run of the page there is a current marker exactly when
    the course has a start point, and it stands at the start point; no
    other marker is on the map.  In particular a first click finds no
    marker to take off the map. *)
Theorem marker_follows_start (inputType_value inputCourseKm_value : string)
    (events : list Display.PageEvent) :
  let pg :=
    Display.run P (Display.Page_new inputType_value inputCourseKm_value)
      events in
  match startLatLng (app (Display.world pg)) with
  | None => Display.startMarker pg = None /\ Display.shown_markers pg = []
  | Some s =>
      exists m,
        Display.current_marker pg = Some m /\
        Display.position m = Some s /\
        (Display.shown_markers pg = [] \/ Display.shown_markers pg = [m])
  end.
Proof.
  cbv zeta.
  assert (H : Display.markers_inv
                (Display.run P
                   (Display.Page_new inputType_value inputCourseKm_value)
                   events)).
  { apply page_run_invariant.
    - split; [reflexivity|constructor].
    - intros pg e. apply step_markers_inv. }
  revert H. generalize (Display.run P
                   (Display.Page_new inputType_value inputCourseKm_value)
                   events) as pg.
  intros pg H. unfold Display.markers_inv in H.
  unfold Display.shown_markers, Display.current_marker.
  destruct (Display.startMarker pg) as [i|].
  - destruct H as (ms & m & Hms & Hi & Hoff & Hpos & Hne). subst i.
    destruct (startLatLng (app (Display.world pg))) as [s|]; [|congruence].
    exists m. rewrite Hms, nth_error_last, filter_app.
    rewrite (filter_all_false _ _ _ Hoff). simpl.
    split; [reflexivity|]. split; [exact Hpos|].
    destruct (Display.marker_onMap m); [now right|now left].
  - destruct H as [Hs Hoff]. rewrite Hs.
    split; [reflexivity|now apply filter_all_false].
Qed.

(** ** Once the map is there *)

Lemma shown_inv_ext (pg pg' : Display.Page) :
  mapLoaded (Display.world pg') = mapLoaded (Display.world pg) ->
  pathCoords (app (Display.world pg')) = pathCoords (app (Display.world pg)) ->
  startLatLng (app (Display.world pg')) = startLatLng (app (Display.world pg)) ->
  Display.polylines pg' = Display.polylines pg ->
  Display.polyline pg' = Display.polyline pg ->
  Display.markers pg' = Display.markers pg ->
  Display.startMarker pg' = Display.startMarker pg ->
  Display.shown_inv pg -> Display.shown_inv pg'.
Proof.
  unfold Display.shown_inv. intros -> -> -> -> -> -> ->. trivial.
Qed.

Lemma shown_after_redraw (pg : Display.Page) :
  Display.lines_tidy pg ->
  mapLoaded (Display.world pg) = true ->
  (startLatLng (app (Display.world pg)) <> None ->
   exists ms m,
     Display.markers pg = ms ++ [m] /\
     Display.startMarker pg = Some (length ms) /\
     Display.marker_onMap m = true) ->
  Display.shown_inv (Display._updateInfo P (Display._redrawPolyline pg)).
Proof.
  intros Ht Hmap Hmarker. unfold Display.shown_inv. page_fields.
  destruct (redraw_markers pg) as [-> ->]. rewrite redraw_world.
  split; [exact Hmap|]. split; [|exact Hmarker].
  intro Hlen. now apply (redraw_lines pg Ht).
Qed.

Lemma shown_marker_new (pg : Display.Page) :
  mapLoaded (Display.world pg) = true ->
  exists ms m,
    Display.markers (Display.new_startMarker pg) = ms ++ [m] /\
    Display.startMarker (Display.new_startMarker pg) = Some (length ms) /\
    Display.marker_onMap m = true.
Proof.
  intro Hmap. page_fields. eexists _, _.
  split; [reflexivity|]. split; [reflexivity|exact Hmap].
Qed.

Lemma step_shown_inv (pg : Display.Page) (e : Display.PageEvent) :
  Display.lines_inv pg ->
  Display.shown_inv pg -> Display.shown_inv (Display.step P pg e).
Proof.
  intros Hl H. pose proof (lines_inv_tidy pg Hl) as Ht.
  pose proof H as (Hmap & Hline & Hmarker).
  destruct e as [|latLng|n ov st| | |xml|v|v]; simpl.
  - revert H. apply shown_inv_ext; page_fields; try reflexivity.
    now rewrite Hmap.
  - rewrite Hmap. unfold Display._onMapClick. cbv zeta.
    destruct (startLatLng (app (Display.world pg))) eqn:Hs.
    + destruct (lastPointLatLng (app (Display.world pg)));
        (revert H; apply shown_inv_ext; page_fields; try reflexivity;
         simpl; now rewrite Hs).
    + apply shown_after_redraw.
      * page_fields. destruct (Display.startMarker pg); exact Ht.
      * page_fields. destruct (Display.startMarker pg); exact Hmap.
      * intros _. apply shown_marker_new.
        page_fields. destruct (Display.startMarker pg); exact Hmap.
  - destruct (nth_error (inflight (Display.world pg)) n) as [req|]; [|exact H].
    unfold Display.route_callback. cbv zeta.
    destruct (negb (st =? "OK")%string).
    + apply shown_after_redraw; page_fields; try assumption.
      unfold push_segment. now rewrite rebuild_startLatLng.
    + destruct (length ov =? 0).
      * revert H. apply shown_inv_ext; reflexivity.
      * apply shown_after_redraw; page_fields; try assumption.
        unfold push_segment. now rewrite rebuild_startLatLng.
  - unfold Display._undoLastSegment. cbv zeta.
    destruct (startLatLng (app (Display.world pg))) eqn:Hs; [|exact H].
    destruct (length (segments (app (Display.world pg))) =? 0).
    + unfold Display.shown_inv. rewrite page_reset_world. simpl.
      split; [exact Hmap|]. split; [lia|congruence].
    + apply shown_after_redraw; page_fields; try assumption.
      rewrite rebuild_startLatLng. simpl. now rewrite Hs.
  - unfold Display.shown_inv. rewrite page_reset_world. simpl.
    split; [exact Hmap|]. split; [lia|congruence].
  - unfold Display._loadGpxFromText.
    destruct xml as [|pts]; [exact H|].
    destruct (length pts <? 2) eqn:Hlen; [exact H|]. cbv zeta.
    rewrite fst_if.
    destruct (reset_lines pg Hl) as [Hp Hoff].
    apply shown_after_redraw.
    + unfold Display.lines_tidy. page_fields. now rewrite Hp.
    + page_fields. now rewrite page_reset_world.
    + intros _. apply shown_marker_new.
      page_fields. now rewrite page_reset_world.
  - revert H. apply shown_inv_ext; reflexivity.
  - revert H. apply shown_inv_ext; reflexivity.
Qed.

(** X12: when the map is created before anything else happens, the map
    shows the course after every run: a path of two points or more is drawn
    by the one poly-line on the map, a shorter path by none, and a start
    point has the one marker on the map, standing on it. *)
Theorem map_shows_course (inputType_value inputCourseKm_value : string)
    (events : list Display.PageEvent) :
  let pg :=
    Display.run P (Display.Page_new inputType_value inputCourseKm_value)
      (Display.MapLoads :: events) in
  let a := app (Display.world pg) in
  (2 <= length (pathCoords a) ->
   exists l, Display.shown_lines pg = [l] /\ Display.path l = pathCoords a) /\
  (length (pathCoords a) < 2 -> Display.shown_lines pg = []) /\
  match startLatLng a with
  | Some s =>
      exists m, Display.shown_markers pg = [m] /\ Display.position m = Some s
  | None => Display.shown_markers pg = []
  end.
Proof.
  cbv zeta.
  change (Display.run P (Display.Page_new inputType_value inputCourseKm_value)
            (Display.MapLoads :: events))
    with (Display.run P
            (Display.step P
               (Display.Page_new inputType_value inputCourseKm_value)
               Display.MapLoads) events).
  assert (H : let pg :=
                Display.run P
                  (Display.step P
                     (Display.Page_new inputType_value inputCourseKm_value)
                     Display.MapLoads) events in
              Display.lines_inv pg /\ Display.markers_inv pg /\
              Display.shown_inv pg).
  { apply (page_run_invariant
             (fun pg => Display.lines_inv pg /\ Display.markers_inv pg /\
                        Display.shown_inv pg)).
    - split; [constructor|]. split; [split; [reflexivity|constructor]|].
      split; [reflexivity|]. simpl. split; [lia|congruence].
    - intros pg e (Hl & Hm & Hs). split; [now apply step_lines_inv|].
      split; [now apply step_markers_inv|now apply step_shown_inv]. }
  revert H. generalize (Display.run P
            (Display.step P
               (Display.Page_new inputType_value inputCourseKm_value)
               Display.MapLoads) events) as pg.
  cbv zeta. intros pg (Hl & Hm & _ & Hline & Hmarker).
  unfold Display.lines_inv in Hl. unfold Display.markers_inv in Hm.
  unfold Display.shown_lines, Display.shown_markers.
  split; [|split].
  - intro Hlen. destruct (Hline Hlen) as (ls & l & Hls & Hp & Hon).
    rewrite Hp in Hl. destruct Hl as (ls' & l' & Hls' & Hi & Hoff & Hpath).
    rewrite Hls in Hls'. apply app_inj_tail in Hls'. destruct Hls' as [<- <-].
    exists l. rewrite Hls, filter_app, (filter_all_false _ _ _ Hoff). simpl.
    rewrite Hon. split; [reflexivity|]. now apply Hpath.
  - intro Hlen. destruct (Display.polyline pg) as [i|].
    + destruct Hl as (ls & l & Hls & Hi & Hoff & Hpath).
      rewrite Hls, filter_app, (filter_all_false _ _ _ Hoff). simpl.
      destruct (Display.line_onMap l) eqn:Hon; [|reflexivity].
      destruct (Hpath eq_refl) as [Hp Hl2]. rewrite Hp in Hl2. lia.
    + now apply filter_all_false.
  - destruct (startLatLng (app (Display.world pg))) as [s|] eqn:Hs.
    + destruct Hmarker as (ms & m & Hms & Hp & Hon); [discriminate|].
      rewrite Hp in Hm. destruct Hm as (ms' & m' & Hms' & Hi & Hoff & Hpos & _).
      rewrite Hms in Hms'. apply app_inj_tail in Hms'. destruct Hms' as [<- <-].
      exists m. rewrite Hms, filter_app, (filter_all_false _ _ _ Hoff). simpl.
      rewrite Hon. now split.
    + destruct (Display.startMarker pg) as [i|].
      * destruct Hm as (ms & m & _ & _ & _ & _ & Hne). congruence.
      * now apply filter_all_false.
Qed.

(** ** The info panel *)

Lemma panel_ext (pg pg' : Display.Page) :
  pathCoords (app (Display.world pg')) = pathCoords (app (Display.world pg)) ->
  Display.inputCourseKm_value pg' = Display.inputCourseKm_value pg ->
  Display.panel P pg' = Display.panel P pg.
Proof.
  unfold Display.panel, _getTotalDistanceKm. intros -> ->. reflexivity.
Qed.

(** X13: the info panel is never stale.  After any run of the page, either
    no handler has written the spans yet, and then the course is still
    empty and no request is pending, or the spans hold what [_updateInfo]
    computes from the path and the target as they are now: calling it once
    more would change nothing. *)
Theorem info_panel_is_current (inputType_value inputCourseKm_value : string)
    (events : list Display.PageEvent) :
  let pg :=
    Display.run P (Display.Page_new inputType_value inputCourseKm_value)
      events in
  match Display.info pg with
  | None => app (Display.world pg) = App_new /\ inflight (Display.world pg) = []
  | Some shown => shown = Display.panel P pg /\ Display._updateInfo P pg = pg
  end.
Proof.
  cbv zeta.
  apply (page_run_invariant
           (fun pg =>
              match Display.info pg with
              | None => app (Display.world pg) = App_new /\
                        inflight (Display.world pg) = []
              | Some shown => shown = Display.panel P pg /\
                              Display._updateInfo P pg = pg
              end)).
  - now split.
  - intros pg e H.
    assert (Hwritten : forall pg1,
               match Display.info (Display._updateInfo P pg1) with
               | None => app (Display.world (Display._updateInfo P pg1)) = App_new /\
                         inflight (Display.world (Display._updateInfo P pg1)) = []
               | Some shown =>
                   shown = Display.panel P (Display._updateInfo P pg1) /\
                   Display._updateInfo P (Display._updateInfo P pg1) =
                     Display._updateInfo P pg1
               end).
    { intro pg1. page_fields. split; reflexivity. }
    assert (Hkept : forall pg',
               Display.info pg' = Display.info pg ->
               pathCoords (app (Display.world pg')) =
                 pathCoords (app (Display.world pg)) ->
               Display.inputCourseKm_value pg' = Display.inputCourseKm_value pg ->
               (Display.info pg = None ->
                app (Display.world pg') = App_new /\
                inflight (Display.world pg') = []) ->
               match Display.info pg' with
               | None => app (Display.world pg') = App_new /\
                         inflight (Display.world pg') = []
               | Some shown => shown = Display.panel P pg' /\
                               Display._updateInfo P pg' = pg'
               end).
    { intros pg' Hi Hp Hk Hnone. rewrite Hi.
      destruct (Display.info pg) as [shown|] eqn:Hinfo.
      - destruct H as [Hshown _]. rewrite (panel_ext pg pg' Hp Hk).
        split; [exact Hshown|].
        unfold Display._updateInfo. rewrite (panel_ext pg pg' Hp Hk).
        rewrite <- Hshown, <- Hi. now destruct pg'.
      - now apply Hnone. }
    destruct e as [|latLng|n ov st| | |xml|v|v]; cbn [Display.step].
    + kept_by Hkept. intro Hnone. rewrite Hnone in H. exact H.
    + destruct (mapLoaded (Display.world pg)); [|exact H].
      unfold Display._onMapClick. cbv zeta.
      destruct (startLatLng (app (Display.world pg))) eqn:Hs.
      * destruct (lastPointLatLng (app (Display.world pg)));
          (kept_by Hkept; intro Hnone; rewrite Hnone in H;
           destruct H as [Ha _]; rewrite Ha in Hs; discriminate).
      * apply Hwritten.
    + destruct (nth_error (inflight (Display.world pg)) n) as [req|] eqn:Hn;
        [|exact H].
      unfold Display.route_callback. cbv zeta.
      destruct (negb (st =? "OK")%string); [apply Hwritten|].
      destruct (length ov =? 0); [|apply Hwritten].
      kept_by Hkept. intro Hnone. rewrite Hnone in H.
      destruct H as [_ Hin]. rewrite Hin in Hn. now destruct n.
    + unfold Display._undoLastSegment. cbv zeta.
      destruct (startLatLng (app (Display.world pg))); [|exact H].
      destruct (length (segments (app (Display.world pg))) =? 0);
        apply Hwritten.
    + apply Hwritten.
    + unfold Display._loadGpxFromText.
      destruct xml as [|pts]; [exact H|].
      destruct (length pts <? 2); [exact H|]. cbv zeta.
      rewrite fst_if. apply Hwritten.
    + kept_by Hkept. intro Hnone. rewrite Hnone in H. exact H.
    + apply Hwritten.
Qed.

(** ** The export *)

(** X14: in every state the course can reach, [_downloadGpx] refuses to
    export exactly when the path has fewer than two points: a path of two
    points or more always comes with a start point, so the test of the start
    point decides nothing.  Otherwise the file is named after the total
    distance. *)
Theorem export_needs_two_points (timeStr : string) (events : list Event) :
  let a := app (run World_new events) in
  (Display._downloadGpx P timeStr a = Display.NothingToExport <->
   length (pathCoords a) < 2) /\
  (2 <= length (pathCoords a) ->
   exists gpx,
     Display._downloadGpx P timeStr a =
     Display.GpxFile
       ("running-course-" ++
        toFixed P (_getTotalDistanceKm (math P) a) 2 ++ "km.gpx")%string gpx).
Proof.
  cbv zeta. pose proof (start_absent_iff_path_empty events) as Hstart.
  cbv zeta in Hstart. revert Hstart.
  generalize (app (run World_new events)) as a. intros a Hstart.
  unfold Display._downloadGpx.
  destruct (startLatLng a) as [s|].
  - cbn [orb].
    destruct (Nat.ltb_spec (length (pathCoords a)) 2) as [Hlt|Hge].
    + split; [tauto|lia].
    + split; [split; [discriminate|lia]|]. intros _. eexists. reflexivity.
  - rewrite (proj1 Hstart eq_refl). cbn [orb]. simpl length.
    split; [split; [lia|reflexivity]|lia].
Qed.

(** ** A total that is not a number *)

Lemma SFcompare_refl_finite (s : bool) (m : positive) (e : Z) :
  SFcompare (S754_finite s m e) (S754_finite s m e) = Some Eq.
Proof.
  unfold SFcompare. rewrite Z.compare_refl.
  assert (Hm : Pos.compare_cont Eq m m = Eq) by apply Pos.compare_refl.
  destruct s; rewrite Hm; reflexivity.
Qed.

Lemma is_nan_Prim2SF (x : float) : is_nan x = true -> Prim2SF x = S754_nan.
Proof.
  unfold is_nan. rewrite eqb_spec. unfold SFeqb.
  destruct (Prim2SF x) as [s|s| |s m e]; try reflexivity.
  - now destruct s.
  - now destruct s.
  - now rewrite SFcompare_refl_finite.
Qed.

(** X15: when the total distance is not a number (the distance of two
    points can be [NaN], and so can a coordinate read from a GPX text) and
    a target is set, the panel never reports the course as on target: the
    difference is shown in the colour of a miss. *)
Theorem nan_total_is_off_target (pg : Display.Page) (target : float) :
  Display.targetKm P (Display.inputCourseKm_value pg) = Some target ->
  is_nan (_getTotalDistanceKm (math P) (app (Display.world pg))) = true ->
  Display.course_diff_color (Display.panel P pg) = "#ffb545"%string /\
  Display.course_target (Display.panel P pg) = toFixed P target 2.
Proof.
  intros Htarget Hnan. unfold Display.panel. rewrite Htarget.
  cbn [Display.course_diff_color Display.course_target].
  split; [|reflexivity].
  apply is_nan_Prim2SF in Hnan.
  rewrite leb_spec, abs_spec, sub_spec, Hnan. reflexivity.
Qed.

End PageFacts.

Lemma nan_total_is_off_target_witness :
  Display.course_diff_color
    (Display.panel examplePlatform
       (Display.run examplePlatform (Display.Page_new "running" "10")
          [Display.Load (Parsed [mkTrkpt 2.5 0; mkTrkpt (-2.5) 180])])) =
  "#ffb545"%string.
Proof.
  apply (nan_total_is_off_target examplePlatform
           (Display.run examplePlatform (Display.Page_new "running" "10")
              [Display.Load (Parsed [mkTrkpt 2.5 0; mkTrkpt (-2.5) 180])])
           10%float); reflexivity.
Defined.

(** ** Undo, again and again *)

Lemma undo_keeps_start (a : App) :
  startLatLng a <> None -> segments a <> [] ->
  startLatLng (_undoLastSegment a) <> None /\
  segments (_undoLastSegment a) = removelast (segments a).
Proof.
  intros Hs Hsegs. unfold _undoLastSegment.
  destruct (startLatLng a) as [s|] eqn:Hstart; [|congruence].
  destruct (segments a) as [|seg segs] eqn:Hseg; [congruence|].
  cbn [length Nat.eqb].
  rewrite rebuild_startLatLng, rebuild_segments. simpl.
  rewrite Hstart. split; [discriminate|reflexivity].
Qed.

(** X16: undo pressed once more than there are segments empties every
    course that has a start point, whatever its path and last point are:
    each press but the last takes one segment away and the last press
    resets. *)
Theorem undo_until_empty (a : App) :
  startLatLng a <> None ->
  Nat.iter (S (length (segments a))) _undoLastSegment a = App_new.
Proof.
  remember (length (segments a)) as n eqn:Hn. revert a Hn.
  induction n as [|n IH]; intros a Hn Hs.
  - simpl. unfold _undoLastSegment.
    destruct (startLatLng a); [|congruence]. now rewrite <- Hn.
  - rewrite Nat.iter_succ_r.
    assert (Hsegs : segments a <> []).
    { intro He. rewrite He in Hn. discriminate. }
    destruct (undo_keeps_start a Hs Hsegs) as [Hs' Hsegs'].
    apply IH; [|exact Hs'].
    rewrite Hsegs'.
    destruct (exists_last Hsegs) as [front [seg Hfront]].
    rewrite Hfront in *. rewrite removelast_last.
    rewrite length_app in Hn. simpl in Hn. lia.
Qed.

Lemma undo_until_empty_witness :
  _undoLastSegment (_undoLastSegment oneLeg) = App_new.
Proof.
  apply (undo_until_empty oneLeg). discriminate.
Defined.
